(** * fuidshift: UID/GID shifter with metadata preservation

    A shallow embedding of [fuidshift.py] and the properties of its
    shift arithmetic, ACL blob codec, per-entry protocol and traversal.

    Python integers are unbounded, so ids and offsets are [Z].  Byte
    strings are [list byte].  Exceptions are values of a small error
    monad; system calls are an interface over an abstract world, with a
    concrete kernel used for the end-to-end scenarios. *)

From Stdlib Require Import Strings.String Strings.Ascii Strings.Byte.
From Stdlib Require Import ZArith List Lia Bool.
Import ListNotations.
Local Open Scope Z_scope.

(** ** Shift arithmetic *)

Module Shift.

(** [shift_id(current_id, offset)], lines 23-32. *)
Definition shift_id (current_id offset : Z) : Z :=
  let abs_offset := Z.abs offset in
  if 0 <? offset then
    if current_id <? abs_offset then current_id + offset else current_id
  else
    if abs_offset <=? current_id then current_id + offset else current_id.

Lemma shift_id_pos (i o : Z) :
  0 < o -> shift_id i o = if i <? o then i + o else i.
Proof.
  intros Ho. unfold shift_id.
  destruct (Z.ltb_spec 0 o); [|lia].
  now rewrite Z.abs_eq by lia.
Qed.

Lemma shift_id_neg (i o : Z) :
  o < 0 -> shift_id i o = if - o <=? i then i + o else i.
Proof.
  intros Ho. unfold shift_id.
  destruct (Z.ltb_spec 0 o); [lia|].
  now rewrite Z.abs_neq by lia.
Qed.

(** A shift that moves nothing: the id is outside the triggering range. *)
Definition outside_range (i o : Z) : Prop :=
  (0 < o -> Z.abs o <= i) /\ (o < 0 -> i < Z.abs o).

Lemma shift_id_outside (i o : Z) :
  o <> 0 -> outside_range i o -> shift_id i o = i.
Proof.
  intros Ho [Hp Hn].
  destruct (Z.lt_trichotomy o 0) as [H|[H|H]]; [|lia|].
  - rewrite shift_id_neg by lia. specialize (Hn H).
    destruct (Z.leb_spec (- o) i); lia.
  - rewrite shift_id_pos by lia. specialize (Hp H).
    destruct (Z.ltb_spec i o); lia.
Qed.

Lemma shift_id_idem_pos (i o : Z) :
  0 <= i -> 0 < o -> shift_id (shift_id i o) o = shift_id i o.
Proof.
  intros Hi Ho. rewrite !shift_id_pos by lia.
  destruct (Z.ltb_spec i o) as [H|H].
  - destruct (Z.ltb_spec (i + o) o); lia.
  - destruct (Z.ltb_spec i o); lia.
Qed.

Lemma shift_id_neg_range (i o : Z) :
  0 <= i -> o < 0 -> 0 <= shift_id i o <= i.
Proof.
  intros Hi Ho. rewrite shift_id_neg by lia.
  destruct (Z.leb_spec (- o) i); lia.
Qed.

Lemma shift_id_lower (i o : Z) : 0 <= i -> 0 <= shift_id i o.
Proof.
  intros Hi. destruct (Z.lt_trichotomy o 0) as [H|[H|H]].
  - now apply shift_id_neg_range.
  - subst. unfold shift_id. simpl. destruct (0 <=? i); lia.
  - rewrite shift_id_pos by lia. destruct (i <? o); lia.
Qed.

Lemma shift_id_up_down_id (i o : Z) :
  0 <= i < o -> shift_id (shift_id i o) (- o) = i.
Proof.
  intros H. rewrite (shift_id_pos i o) by lia.
  destruct (Z.ltb_spec i o); [|lia].
  rewrite shift_id_neg by lia.
  destruct (Z.leb_spec (- - o) (i + o)); lia.
Qed.

Lemma shift_id_zero (i : Z) : shift_id i 0 = i.
Proof.
  unfold shift_id. cbn [Z.ltb Z.compare Z.abs].
  destruct (0 <=? i); lia.
Qed.

End Shift.
Export Shift.

(** ** Exceptions *)

(** The two exception classes the program handles. *)
Inductive exn : Type :=
| struct_error
| OSError (msg : string).

Inductive result (A : Type) : Type :=
| Ok (a : A)
| Raise (e : exn).
Arguments Ok {A} a.
Arguments Raise {A} e.

Definition rbind {A B} (r : result A) (k : A -> result B) : result B :=
  match r with
  | Ok a => k a
  | Raise e => Raise e
  end.

Declare Scope result_scope.
Delimit Scope result_scope with result.
Notation "x <- r ;; k" := (rbind r (fun x => k))
  (at level 61, r at next level, right associativity) : result_scope.
Notation "' pat <- r ;; k" := (rbind r (fun x => match x with pat => k end))
  (at level 61, pat pattern, r at next level, right associativity)
  : result_scope.

(** ** The [struct] codec for the formats ['<I'] and ['<HHI'] *)

Module Struct.

Definition bytes := list byte.

Definition byte_to_Z (b : byte) : Z := Z.of_N (Byte.to_N b).

Definition byte_of_Z (z : Z) : byte :=
  match Byte.of_N (Z.to_N z) with
  | Some b => b
  | None => x00
  end.

(** Little-endian value of a byte string. *)
Fixpoint le_decode (bs : bytes) : Z :=
  match bs with
  | [] => 0
  | b :: rest => byte_to_Z b + 256 * le_decode rest
  end.

(** The [n] low-order bytes of [v], least significant first. *)
Fixpoint le_encode (n : nat) (v : Z) : bytes :=
  match n with
  | O => []
  | S n' => byte_of_Z (v mod 256) :: le_encode n' (v / 256)
  end.

(** [buf[start : start + len]]. *)
Definition slice (buf : bytes) (start len : nat) : bytes :=
  firstn len (skipn start buf).

(** An unsigned field of [bits] bits accepts exactly [0 .. 2^bits - 1]. *)
Definition in_range (bits : Z) (v : Z) : bool :=
  (0 <=? v) && (v <? 2 ^ bits).

(** [struct.unpack('<I', buf)]: the buffer must be exactly 4 bytes. *)
Definition unpack_I (buf : bytes) : result Z :=
  if (length buf =? 4)%nat then Ok (le_decode buf) else Raise struct_error.

(** [struct.unpack_from('<HHI', buf, ofs)]: at least 8 bytes from [ofs]. *)
Definition unpack_from_HHI (buf : bytes) (ofs : nat) : result (Z * Z * Z) :=
  if (ofs + 8 <=? length buf)%nat then
    Ok (le_decode (slice buf ofs 2),
        le_decode (slice buf (ofs + 2) 2),
        le_decode (slice buf (ofs + 4) 4))
  else Raise struct_error.

(** The wire layout of one entry: 16-bit tag, 16-bit permission,
    32-bit id, all little-endian. *)
Definition encode_entry (tag perm id : Z) : bytes :=
  le_encode 2 tag ++ le_encode 2 perm ++ le_encode 4 id.

(** [struct.pack('<HHI', tag, perm, id)]: every field must fit. *)
Definition pack_HHI (tag perm id : Z) : result bytes :=
  if in_range 16 tag && in_range 16 perm && in_range 32 id
  then Ok (encode_entry tag perm id)
  else Raise struct_error.

Lemma byte_to_Z_range (b : byte) : 0 <= byte_to_Z b < 256.
Proof.
  unfold byte_to_Z. pose proof (Byte.to_N_bounded b). lia.
Qed.

Lemma byte_of_to_Z (b : byte) : byte_of_Z (byte_to_Z b) = b.
Proof.
  unfold byte_of_Z, byte_to_Z. now rewrite N2Z.id, Byte.of_to_N.
Qed.

Lemma le_decode_range (bs : bytes) :
  0 <= le_decode bs < 256 ^ Z.of_nat (length bs).
Proof.
  induction bs as [|b rest IH]; [simpl; lia|].
  cbn [le_decode length]. rewrite Nat2Z.inj_succ, Z.pow_succ_r by lia.
  pose proof (byte_to_Z_range b). lia.
Qed.

Lemma le_encode_decode (bs : bytes) :
  le_encode (length bs) (le_decode bs) = bs.
Proof.
  induction bs as [|b rest IH]; [reflexivity|].
  cbn [le_decode length le_encode].
  pose proof (byte_to_Z_range b) as Hb.
  replace ((byte_to_Z b + 256 * le_decode rest) mod 256) with (byte_to_Z b).
  - replace ((byte_to_Z b + 256 * le_decode rest) / 256) with (le_decode rest).
    + now rewrite byte_of_to_Z, IH.
    + symmetry. rewrite Z.mul_comm, Z.div_add by lia.
      rewrite Z.div_small by lia. lia.
  - symmetry. rewrite Z.mul_comm, Z.mod_add by lia. now apply Z.mod_small.
Qed.

Lemma le_encode_length (n : nat) (v : Z) : length (le_encode n v) = n.
Proof.
  revert v. induction n as [|n IH]; intros v; [reflexivity|].
  cbn [le_encode length]. now rewrite IH.
Qed.

Lemma in_range_decode (bs : bytes) (bits : Z) :
  bits = 8 * Z.of_nat (length bs) -> in_range bits (le_decode bs) = true.
Proof.
  intros ->. unfold in_range. pose proof (le_decode_range bs) as H.
  rewrite Z.pow_mul_r by lia. change (2 ^ 8) with 256.
  apply andb_true_intro. split; [apply Z.leb_le|apply Z.ltb_lt]; lia.
Qed.

Lemma slice_length (buf : bytes) (start len : nat) :
  (start + len <= length buf)%nat -> length (slice buf start len) = len.
Proof.
  intros H. unfold slice. rewrite length_firstn, length_skipn. lia.
Qed.

Lemma slice_app_mid (pre c post : bytes) (k n : nat) :
  (k + n <= length c)%nat ->
  slice (pre ++ c ++ post) (length pre + k) n = slice c k n.
Proof.
  intros H. unfold slice.
  rewrite skipn_app, skipn_all2 by lia.
  replace (length pre + k - length pre)%nat with k by lia. simpl.
  rewrite skipn_app, firstn_app, length_skipn.
  replace (n - (length c - k))%nat with 0%nat by lia.
  now rewrite firstn_O, app_nil_r.
Qed.

Lemma byte_to_of_Z (z : Z) : 0 <= z < 256 -> byte_to_Z (byte_of_Z z) = z.
Proof.
  intros Hz. unfold byte_to_Z, byte_of_Z.
  destruct (Byte.of_N (Z.to_N z)) as [b|] eqn:Hb.
  - apply Byte.to_of_N in Hb. rewrite Hb. apply Z2N.id. lia.
  - apply Byte.of_N_None_iff in Hb. lia.
Qed.

Lemma le_decode_encode (n : nat) (v : Z) :
  0 <= v < 256 ^ Z.of_nat n -> le_decode (le_encode n v) = v.
Proof.
  revert v. induction n as [|n IH]; intros v Hv.
  - simpl in *. lia.
  - cbn [le_encode le_decode].
    rewrite Nat2Z.inj_succ, Z.pow_succ_r in Hv by lia.
    rewrite byte_to_of_Z by (apply Z.mod_pos_bound; lia).
    rewrite IH.
    + pose proof (Z.div_mod v 256). lia.
    + split; [apply Z.div_pos; lia|apply Z.div_lt_upper_bound; lia].
Qed.

Lemma in_range_spec (bits v : Z) :
  in_range bits v = true <-> 0 <= v < 2 ^ bits.
Proof.
  unfold in_range. rewrite andb_true_iff, Z.leb_le, Z.ltb_lt. tauto.
Qed.

End Struct.
Export Struct.

(** ** ACL blob codec *)

Module Acl.
Local Open Scope result_scope.

Definition ACL_EA_VERSION : Z := 2.
Definition ACL_TAG_USER : Z := 2.
Definition ACL_TAG_GROUP : Z := 8.
Definition ACL_ENTRY_SIZE : nat := 8.
Definition ACL_HEADER_SIZE : nat := 4.

(** [tag in (ACL_TAG_USER, ACL_TAG_GROUP)]. *)
Definition is_id_tag (tag : Z) : bool :=
  (tag =? ACL_TAG_USER) || (tag =? ACL_TAG_GROUP).

(** [try: body / except struct.error: handler]; any other exception
    propagates. *)
Definition try_except_struct_error {A} (body handler : result A) : result A :=
  match body with
  | Raise struct_error => handler
  | r => r
  end.

(** The [for i in range(num_entries)] loop, lines 50-58, threading
    [new_blob]. *)
Fixpoint entries_loop (blob : bytes) (offset : Z) (indices : list nat)
    (new_blob : bytes) : result bytes :=
  match indices with
  | [] => Ok new_blob
  | i :: rest =>
      let entry_offset := (ACL_HEADER_SIZE + i * ACL_ENTRY_SIZE)%nat in
      '(tag, perm, old_id) <- unpack_from_HHI blob entry_offset ;;
      let new_id := if is_id_tag tag then shift_id old_id offset else old_id in
      packed <- pack_HHI tag perm new_id ;;
      entries_loop blob offset rest (new_blob ++ packed)
  end.

(** The body of the [try] block, lines 37-60. *)
Definition modify_acl_blob_body (blob : bytes) (offset : Z) : result bytes :=
  if (length blob <? ACL_HEADER_SIZE)%nat then Ok blob else
  version <- unpack_I (firstn ACL_HEADER_SIZE blob) ;;
  if negb (version =? ACL_EA_VERSION) then Ok blob else
  if negb ((length blob - ACL_HEADER_SIZE) mod ACL_ENTRY_SIZE =? 0)%nat
  then Ok blob else
  let new_blob := firstn ACL_HEADER_SIZE blob in
  let num_entries := ((length blob - ACL_HEADER_SIZE) / ACL_ENTRY_SIZE)%nat in
  entries_loop blob offset (seq 0 num_entries) new_blob.

(** [modify_acl_blob(blob, offset)], lines 34-62. *)
Definition modify_acl_blob (blob : bytes) (offset : Z) : result bytes :=
  try_except_struct_error (modify_acl_blob_body blob offset) (Ok blob).

(** *** The blob format, as the specification words it *)

(** A well-formed blob: a 4-byte little-endian header equal to version
    2, and a body that is an exact multiple of 8 bytes. *)
Definition well_formed (blob : bytes) : Prop :=
  (4 <= length blob)%nat /\
  le_decode (firstn 4 blob) = 2 /\
  ((length blob - 4) mod 8 = 0)%nat.

(** The first [n] consecutive 8-byte pieces of [body]. *)
Fixpoint chunks (n : nat) (body : bytes) : list bytes :=
  match n with
  | O => []
  | S n' => firstn 8 body :: chunks n' (skipn 8 body)
  end.

(** The entries of a blob, in order, each as its 8 bytes. *)
Definition acl_entries (blob : bytes) : list bytes :=
  chunks ((length blob - 4) / 8) (skipn 4 blob).

(** The fields (tag, permission, id) of an 8-byte entry. *)
Definition decode_entry (c : bytes) : Z * Z * Z :=
  (le_decode (slice c 0 2), le_decode (slice c 2 2), le_decode (slice c 4 4)).

Definition entry_tag (c : bytes) : Z := fst (fst (decode_entry c)).
Definition entry_perm (c : bytes) : Z := snd (fst (decode_entry c)).
Definition entry_id (c : bytes) : Z := snd (decode_entry c).

(** What the specification asks of one entry: a USER or GROUP entry
    gets its id replaced by the shifted id, any other entry is kept. *)
Definition shifted_entry (offset : Z) (c : bytes) : bytes :=
  if is_id_tag (entry_tag c)
  then encode_entry (entry_tag c) (entry_perm c)
                    (shift_id (entry_id c) offset)
  else c.

(** The shifted id of a USER or GROUP entry still fits in 32 bits. *)
Definition entry_fits (offset : Z) (c : bytes) : bool :=
  if is_id_tag (entry_tag c)
  then in_range 32 (shift_id (entry_id c) offset)
  else true.

Definition chunk8 (c : bytes) : Prop := length c = 8%nat.

Lemma concat_chunk8_length (l : list bytes) :
  Forall chunk8 l -> length (concat l) = (8 * length l)%nat.
Proof.
  induction 1 as [|c l Hc _ IH]; [reflexivity|].
  cbn [concat length]. rewrite length_app, IH. unfold chunk8 in Hc. lia.
Qed.

Lemma chunks_concat (n : nat) (body : bytes) :
  length body = (8 * n)%nat ->
  concat (chunks n body) = body /\ Forall chunk8 (chunks n body) /\
  length (chunks n body) = n.
Proof.
  revert body. induction n as [|n IH]; intros body Hlen.
  - destruct body; [repeat split; constructor|discriminate].
  - cbn [chunks concat length].
    destruct (IH (skipn 8 body)) as (Hc & Hf & Hl).
    { rewrite length_skipn. lia. }
    rewrite Hc, Hl, firstn_skipn. repeat split.
    constructor; [|assumption].
    unfold chunk8. rewrite length_firstn. lia.
Qed.

Lemma chunks_of_concat (l : list bytes) :
  Forall chunk8 l -> chunks (length l) (concat l) = l.
Proof.
  induction 1 as [|c l Hc _ IH]; [reflexivity|].
  cbn [length chunks concat]. unfold chunk8 in Hc.
  rewrite firstn_app, skipn_app, Hc, Nat.sub_diag.
  rewrite firstn_O, app_nil_r, skipn_O.
  rewrite <- Hc at 1. rewrite firstn_all.
  rewrite <- Hc at 1. rewrite skipn_all. simpl. now rewrite IH.
Qed.

Lemma encode_decode_entry (c : bytes) :
  chunk8 c ->
  encode_entry (entry_tag c) (entry_perm c) (entry_id c) = c.
Proof.
  unfold chunk8. intros H.
  do 8 (destruct c as [|? c]; [discriminate|]).
  destruct c; [|discriminate].
  unfold encode_entry, entry_tag, entry_perm, entry_id, decode_entry, slice.
  cbn [fst snd firstn skipn].
  rewrite (le_encode_decode [_; _]), (le_encode_decode [_; _]).
  now rewrite (le_encode_decode [_; _; _; _]).
Qed.

Lemma shifted_entry_length (offset : Z) (c : bytes) :
  chunk8 c -> chunk8 (shifted_entry offset c).
Proof.
  intros H. unfold shifted_entry. destruct (is_id_tag _); [|assumption].
  unfold chunk8, encode_entry. now rewrite !length_app, !le_encode_length.
Qed.

Lemma unpack_from_chunk (hdr : bytes) (done rest : list bytes) (c : bytes) :
  length hdr = 4%nat -> Forall chunk8 done -> chunk8 c ->
  unpack_from_HHI (hdr ++ concat done ++ concat (c :: rest))
                  (ACL_HEADER_SIZE + length done * ACL_ENTRY_SIZE) =
  Ok (decode_entry c).
Proof.
  intros Hh Hd Hc. unfold unpack_from_HHI, ACL_HEADER_SIZE, ACL_ENTRY_SIZE.
  pose proof (concat_chunk8_length done Hd) as Hl. unfold chunk8 in Hc.
  cbn [concat]. rewrite !length_app, Hh, Hl, Hc.
  destruct (Nat.leb_spec (4 + length done * 8 + 8)
              (4 + (8 * length done + (8 + length (concat rest))))); [|lia].
  rewrite (app_assoc hdr).
  assert (Hpre : length (hdr ++ concat done) = (4 + length done * 8)%nat)
    by (rewrite length_app; lia).
  unfold decode_entry. rewrite <- Hpre.
  rewrite <- (Nat.add_0_r (length (hdr ++ concat done))) at 1.
  now rewrite !slice_app_mid by lia.
Qed.

(** The loop over the remaining entries either appends each shifted
    entry, or raises [struct.error] when a shifted id does not fit. *)
Lemma entries_loop_spec (offset : Z) (hdr : bytes) (rest : list bytes) :
  length hdr = 4%nat -> Forall chunk8 rest ->
  forall (done : list bytes) (acc : bytes), Forall chunk8 done ->
  entries_loop (hdr ++ concat done ++ concat rest) offset
               (seq (length done) (length rest)) acc =
  if forallb (entry_fits offset) rest
  then Ok (acc ++ flat_map (shifted_entry offset) rest)
  else Raise struct_error.
Proof.
  intros Hh Hrest. induction Hrest as [|c rest Hc Hrest IH]; intros done acc Hd.
  - cbn. now rewrite app_nil_r.
  - cbn [length seq entries_loop].
    rewrite unpack_from_chunk by assumption.
    unfold rbind at 1.
    pose proof (encode_decode_entry c Hc) as Hrt.
    unfold entry_fits at 1, shifted_entry at 1.
    cbn [forallb flat_map].
    unfold entry_tag, entry_perm, entry_id in *.
    destruct (decode_entry c) as [[tag perm] old_id] eqn:Hdec.
    cbn [fst snd] in *.
    assert (Htag : in_range 16 tag = true).
    { unfold decode_entry in Hdec. injection Hdec as <- _ _.
      apply in_range_decode. unfold chunk8 in Hc.
      rewrite slice_length by lia. reflexivity. }
    assert (Hperm : in_range 16 perm = true).
    { unfold decode_entry in Hdec. injection Hdec as _ <- _.
      apply in_range_decode. unfold chunk8 in Hc.
      rewrite slice_length by lia. reflexivity. }
    assert (Hid : in_range 32 old_id = true).
    { unfold decode_entry in Hdec. injection Hdec as _ _ <-.
      apply in_range_decode. unfold chunk8 in Hc.
      rewrite slice_length by lia. reflexivity. }
    unfold pack_HHI. rewrite Htag, Hperm. cbn [andb].
    assert (Hstep : forall packed,
      entries_loop (hdr ++ concat done ++ concat (c :: rest)) offset
                   (seq (S (length done)) (length rest)) (acc ++ packed) =
      if forallb (entry_fits offset) rest
      then Ok (acc ++ packed ++ flat_map (shifted_entry offset) rest)
      else Raise struct_error).
    { intros packed.
      specialize (IH (done ++ [c]) (acc ++ packed)).
      rewrite length_app, Nat.add_1_r, concat_app in IH.
      cbn [concat] in IH. rewrite app_nil_r, <- !app_assoc in IH.
      cbn [concat]. rewrite IH; [reflexivity|].
      apply Forall_app. split; [assumption|now constructor]. }
    destruct (is_id_tag tag).
    + destruct (in_range 32 (shift_id old_id offset)); cbn [rbind andb].
      * apply Hstep.
      * reflexivity.
    + rewrite Hid. cbn [rbind andb]. rewrite Hrt. apply Hstep.
Qed.

(** A well-formed blob is its header followed by its entries. *)
Lemma well_formed_split (blob : bytes) :
  well_formed blob ->
  blob = firstn 4 blob ++ concat (acl_entries blob) /\
  length (firstn 4 blob) = 4%nat /\
  Forall chunk8 (acl_entries blob) /\
  length (acl_entries blob) = ((length blob - 4) / 8)%nat.
Proof.
  intros (Hlen & _ & Hmod). unfold acl_entries.
  destruct (chunks_concat ((length blob - 4) / 8) (skipn 4 blob))
    as (Hc & Hf & Hl).
  { rewrite length_skipn.
    pose proof (Nat.div_mod_eq (length blob - 4) 8). lia. }
  rewrite Hc, firstn_skipn, length_firstn. repeat split; try assumption. lia.
Qed.

(** The body of the [try] block on a well-formed blob. *)
Lemma modify_acl_blob_body_well_formed (blob : bytes) (offset : Z) :
  well_formed blob ->
  modify_acl_blob_body blob offset =
  if forallb (entry_fits offset) (acl_entries blob)
  then Ok (firstn 4 blob ++
           flat_map (shifted_entry offset) (acl_entries blob))
  else Raise struct_error.
Proof.
  intros Hwf. pose proof Hwf as (Hlen & Hver & Hmod).
  destruct (well_formed_split blob Hwf) as (Hsplit & Hh & Hf & Hn).
  unfold modify_acl_blob_body, ACL_HEADER_SIZE, ACL_ENTRY_SIZE, ACL_EA_VERSION.
  destruct (Nat.ltb_spec (length blob) 4); [lia|].
  unfold unpack_I. rewrite Hh, Nat.eqb_refl. cbn [rbind].
  rewrite Hver. cbn [Z.eqb Pos.eqb negb].
  rewrite Hmod. cbn [Nat.eqb negb].
  rewrite <- Hn.
  pose proof (entries_loop_spec offset (firstn 4 blob) (acl_entries blob)
                Hh Hf [] (firstn 4 blob) (Forall_nil _)) as Hloop.
  cbn [concat app length] in Hloop.
  rewrite <- Hsplit in Hloop. exact Hloop.
Qed.

Lemma decode_encode_entry (tag perm id : Z) :
  in_range 16 tag = true -> in_range 16 perm = true ->
  in_range 32 id = true ->
  decode_entry (encode_entry tag perm id) = (tag, perm, id).
Proof.
  rewrite !in_range_spec. intros Ht Hp Hi.
  unfold decode_entry, encode_entry, slice.
  cbn [le_encode app firstn skipn].
  rewrite <- (le_decode_encode 2 tag) at 3 by (simpl; lia).
  rewrite <- (le_decode_encode 2 perm) at 3 by (simpl; lia).
  rewrite <- (le_decode_encode 4 id) at 5 by (simpl; lia).
  reflexivity.
Qed.

Lemma entry_fields_range (c : bytes) :
  chunk8 c ->
  in_range 16 (entry_tag c) = true /\ in_range 16 (entry_perm c) = true /\
  in_range 32 (entry_id c) = true.
Proof.
  unfold chunk8. intros Hc.
  unfold entry_tag, entry_perm, entry_id, decode_entry. cbn [fst snd].
  repeat split; apply in_range_decode; rewrite slice_length by lia;
    reflexivity.
Qed.

(** The entries and header of a blob assembled from its pieces. *)
Lemma acl_entries_build (hdr : bytes) (l : list bytes) :
  length hdr = 4%nat -> Forall chunk8 l ->
  firstn 4 (hdr ++ concat l) = hdr /\ acl_entries (hdr ++ concat l) = l.
Proof.
  intros Hh Hl. split.
  - rewrite firstn_app, Hh, Nat.sub_diag, firstn_O, app_nil_r.
    rewrite <- Hh. apply firstn_all.
  - unfold acl_entries.
    rewrite length_app, Hh, (concat_chunk8_length l Hl).
    replace (4 + 8 * length l - 4)%nat with (length l * 8)%nat by lia.
    rewrite Nat.div_mul by lia.
    rewrite skipn_app, Hh, Nat.sub_diag, skipn_O.
    rewrite <- Hh at 1. rewrite skipn_all. simpl.
    now apply chunks_of_concat.
Qed.

(** The three early returns of the [try] block. *)
Lemma modify_acl_blob_body_passthrough (blob : bytes) (offset : Z) :
  (length blob < 4)%nat \/ le_decode (firstn 4 blob) <> 2 \/
  ((length blob - 4) mod 8 <> 0)%nat ->
  modify_acl_blob_body blob offset = Ok blob.
Proof.
  intros H. unfold modify_acl_blob_body, ACL_HEADER_SIZE, ACL_ENTRY_SIZE,
    ACL_EA_VERSION, unpack_I.
  destruct (Nat.ltb_spec (length blob) 4) as [Hs|Hs]; [reflexivity|].
  rewrite length_firstn, Nat.min_l, Nat.eqb_refl by lia. cbn [rbind].
  destruct (Z.eqb_spec (le_decode (firstn 4 blob)) 2) as [Hv|Hv];
    [|reflexivity].
  cbn [negb].
  destruct (Nat.eqb_spec ((length blob - 4) mod 8) 0) as [Hm|Hm];
    [|reflexivity].
  lia.
Qed.

(** The body of the [try] block raises nothing but [struct.error]. *)
Lemma modify_acl_blob_body_cases (blob : bytes) (offset : Z) :
  (exists out, modify_acl_blob_body blob offset = Ok out) \/
  modify_acl_blob_body blob offset = Raise struct_error.
Proof.
  destruct (Nat.ltb_spec (length blob) 4) as [Hs|Hs];
    [|destruct (Z.eq_dec (le_decode (firstn 4 blob)) 2) as [Hv|Hv];
      [destruct (Nat.eq_dec ((length blob - 4) mod 8) 0) as [Hm|Hm]|]];
    try (left; exists blob; apply modify_acl_blob_body_passthrough;
         now auto).
  rewrite modify_acl_blob_body_well_formed by (repeat split; assumption).
  destruct (forallb _ _); [left; eexists; reflexivity|now right].
Qed.

(** What [modify_acl_blob] returns, as bytes. *)
Definition shifted_blob (blob : bytes) (offset : Z) : bytes :=
  match modify_acl_blob blob offset with
  | Ok out => out
  | Raise _ => blob
  end.

Lemma modify_acl_blob_total (blob : bytes) (offset : Z) :
  modify_acl_blob blob offset = Ok (shifted_blob blob offset).
Proof.
  unfold shifted_blob, modify_acl_blob.
  now destruct (modify_acl_blob_body_cases blob offset) as [(out & ->)| ->].
Qed.

(** *** The shift law on whole blobs *)

(** Entry [c'] is entry [c] after the shift: same layout, tag and
    permission; the id shifted when the tag is USER or GROUP, and all
    eight bytes kept otherwise. *)
Definition entry_shifted_as_claimed (offset : Z) (c c' : bytes) : Prop :=
  chunk8 c' /\ entry_tag c' = entry_tag c /\ entry_perm c' = entry_perm c /\
  (if is_id_tag (entry_tag c)
   then entry_id c' = shift_id (entry_id c) offset
   else c' = c).

(** [modify_acl_blob] returns the header unchanged, followed by every
    entry shifted in its original position. *)
Definition acl_shift_law (blob : bytes) (offset : Z) : Prop :=
  exists out,
    modify_acl_blob blob offset = Ok out /\
    firstn 4 out = firstn 4 blob /\
    Forall2 (entry_shifted_as_claimed offset)
            (acl_entries blob) (acl_entries out).

(** The shifted id of a USER or GROUP entry is below [2^32]. *)
Definition id_fits (offset : Z) (c : bytes) : Prop :=
  is_id_tag (entry_tag c) = true -> shift_id (entry_id c) offset < 2 ^ 32.

(** The shifted id of this USER or GROUP entry needs more than 32 bits. *)
Definition id_overflows (offset : Z) (c : bytes) : Prop :=
  is_id_tag (entry_tag c) = true /\ 2 ^ 32 <= shift_id (entry_id c) offset.

Lemma entry_fits_iff (offset : Z) (c : bytes) :
  chunk8 c -> entry_fits offset c = true <-> id_fits offset c.
Proof.
  intros Hc. unfold entry_fits, id_fits.
  destruct (entry_fields_range c Hc) as (_ & _ & Hid).
  apply in_range_spec in Hid.
  destruct (is_id_tag (entry_tag c));
    [|split; [intros _ H; discriminate H|reflexivity]].
  rewrite in_range_spec.
  pose proof (shift_id_lower (entry_id c) offset). intuition lia.
Qed.

Lemma forallb_entry_fits (offset : Z) (l : list bytes) :
  Forall chunk8 l -> Forall (id_fits offset) l ->
  forallb (entry_fits offset) l = true.
Proof.
  intros Hc Hf. apply forallb_forall. intros c Hin.
  rewrite Forall_forall in Hc, Hf. apply entry_fits_iff; auto.
Qed.

Lemma forallb_entry_overflow (offset : Z) (l : list bytes) :
  Forall chunk8 l -> Exists (id_overflows offset) l ->
  forallb (entry_fits offset) l = false.
Proof.
  intros Hc He. apply not_true_is_false. intros Hall.
  rewrite forallb_forall in Hall. rewrite Forall_forall in Hc.
  apply Exists_exists in He. destruct He as (c & Hin & Htag & Hov).
  specialize (Hall c Hin). apply entry_fits_iff in Hall; [|auto].
  specialize (Hall Htag). lia.
Qed.

Lemma shifted_entry_as_claimed (offset : Z) (c : bytes) :
  chunk8 c -> id_fits offset c ->
  entry_shifted_as_claimed offset c (shifted_entry offset c).
Proof.
  intros Hc Hfit. split; [now apply shifted_entry_length|].
  destruct (entry_fields_range c Hc) as (Ht & Hp & Hi).
  unfold id_fits in Hfit. unfold shifted_entry.
  destruct (is_id_tag (entry_tag c)) eqn:Htag; [|now repeat split].
  assert (Hr : in_range 32 (shift_id (entry_id c) offset) = true).
  { apply in_range_spec. apply in_range_spec in Hi.
    pose proof (shift_id_lower (entry_id c) offset). lia. }
  pose proof (decode_encode_entry _ _ _ Ht Hp Hr) as Hd.
  unfold entry_tag, entry_perm, entry_id in *.
  rewrite Hd. cbn [fst snd]. now repeat split.
Qed.

Lemma shifted_entry_outside (offset : Z) (c : bytes) :
  chunk8 c -> offset <> 0 ->
  (is_id_tag (entry_tag c) = true -> outside_range (entry_id c) offset) ->
  shifted_entry offset c = c /\ id_fits offset c.
Proof.
  intros Hc Ho Hout. unfold shifted_entry, id_fits.
  destruct (entry_fields_range c Hc) as (_ & _ & Hi).
  apply in_range_spec in Hi.
  destruct (is_id_tag (entry_tag c)); [|split; [reflexivity|discriminate]].
  rewrite (shift_id_outside _ _ Ho (Hout eq_refl)).
  split; [now apply encode_decode_entry|lia].
Qed.

(** With a negative offset every shifted id fits. *)
Lemma id_fits_negative (offset : Z) (c : bytes) :
  chunk8 c -> offset < 0 -> id_fits offset c.
Proof.
  intros Hc Ho _.
  destruct (entry_fields_range c Hc) as (_ & _ & Hi).
  apply in_range_spec in Hi.
  pose proof (shift_id_neg_range (entry_id c) offset). lia.
Qed.

(** The result on a well-formed blob: every entry shifted, or the
    input itself when some shifted id does not fit. *)
Lemma modify_acl_blob_well_formed (blob : bytes) (offset : Z) :
  well_formed blob ->
  modify_acl_blob blob offset =
  Ok (if forallb (entry_fits offset) (acl_entries blob)
      then firstn 4 blob ++ flat_map (shifted_entry offset) (acl_entries blob)
      else blob).
Proof.
  intros Hwf. unfold modify_acl_blob.
  rewrite modify_acl_blob_body_well_formed by assumption.
  now destruct (forallb _ _).
Qed.

Lemma acl_shift_law_fits (blob : bytes) (offset : Z) :
  well_formed blob -> Forall (id_fits offset) (acl_entries blob) ->
  acl_shift_law blob offset.
Proof.
  intros Hwf Hfit.
  destruct (well_formed_split blob Hwf) as (_ & Hh & Hf & _).
  exists (firstn 4 blob ++ flat_map (shifted_entry offset) (acl_entries blob)).
  rewrite modify_acl_blob_well_formed by assumption.
  rewrite forallb_entry_fits by assumption.
  split; [reflexivity|]. rewrite flat_map_concat_map.
  assert (Hm : Forall chunk8 (map (shifted_entry offset) (acl_entries blob))).
  { apply Forall_map. eapply Forall_impl; [|exact Hf].
    intros c. apply shifted_entry_length. }
  destruct (acl_entries_build _ _ Hh Hm) as (Hb1 & Hb2).
  split; [exact Hb1|].
  refine (eq_ind_r (fun l => Forall2 _ _ l) _ Hb2). clear Hb1 Hb2 Hm.
  revert Hf Hfit. generalize (acl_entries blob) as l.
  induction l as [|c l IH]; intros Hf Hfit; [constructor|].
  inversion Hf; inversion Hfit; subst. cbn [map].
  constructor; [now apply shifted_entry_as_claimed|now apply IH].
Qed.

Lemma flat_map_fixed (f : bytes -> bytes) (l : list bytes) :
  Forall (fun c => f c = c) l -> flat_map f l = concat l.
Proof.
  induction 1 as [|c l Hc _ IH]; [reflexivity|].
  cbn [flat_map concat]. now rewrite Hc, IH.
Qed.

(** A blob whose second USER entry overflows under offset 3000000000,
    while its first one would fit. *)
Definition overflow_blob : bytes :=
  le_encode 4 ACL_EA_VERSION ++
  encode_entry ACL_TAG_USER 7 1000 ++
  encode_entry ACL_TAG_USER 7 2000000000.

(** A blob with a USER entry of id 1000 and an entry of another tag. *)
Definition sample_blob : bytes :=
  le_encode 4 ACL_EA_VERSION ++
  encode_entry ACL_TAG_USER 7 1000 ++
  encode_entry 16 5 4294967295.

(** *** Further facts on whole blobs *)

Lemma well_formed_dec (blob : bytes) :
  well_formed blob \/
  ((length blob < 4)%nat \/ le_decode (firstn 4 blob) <> 2 \/
   ((length blob - 4) mod 8 <> 0)%nat).
Proof.
  unfold well_formed.
  destruct (Nat.ltb_spec (length blob) 4); [now auto|].
  destruct (Z.eq_dec (le_decode (firstn 4 blob)) 2); [|now auto].
  destruct (Nat.eq_dec ((length blob - 4) mod 8) 0); now auto.
Qed.

Lemma modify_acl_blob_malformed (blob : bytes) (offset : Z) :
  (length blob < 4)%nat \/ le_decode (firstn 4 blob) <> 2 \/
  ((length blob - 4) mod 8 <> 0)%nat ->
  modify_acl_blob blob offset = Ok blob.
Proof.
  intros H. unfold modify_acl_blob.
  now rewrite modify_acl_blob_body_passthrough.
Qed.

Lemma well_formed_length (blob : bytes) :
  well_formed blob ->
  length blob = (4 + 8 * length (acl_entries blob))%nat.
Proof.
  intros Hwf. destruct (well_formed_split blob Hwf) as (Hs & Hh & Hf & _).
  rewrite Hs at 1. now rewrite length_app, Hh, concat_chunk8_length.
Qed.

Lemma shifted_entries_chunk8 (offset : Z) (l : list bytes) :
  Forall chunk8 l -> Forall chunk8 (map (shifted_entry offset) l).
Proof.
  intros Hf. apply Forall_map. eapply Forall_impl; [|exact Hf].
  intros c. apply shifted_entry_length.
Qed.

(** The blob [modify_acl_blob] builds when every shifted id fits. *)
Definition rebuilt (blob : bytes) (offset : Z) : bytes :=
  firstn 4 blob ++ concat (map (shifted_entry offset) (acl_entries blob)).

Lemma modify_acl_blob_rebuilt (blob : bytes) (offset : Z) :
  well_formed blob ->
  modify_acl_blob blob offset =
  Ok (if forallb (entry_fits offset) (acl_entries blob)
      then rebuilt blob offset else blob).
Proof.
  intros Hwf. rewrite modify_acl_blob_well_formed by assumption.
  unfold rebuilt. now rewrite flat_map_concat_map.
Qed.

Lemma rebuilt_well_formed (blob : bytes) (offset : Z) :
  well_formed blob ->
  well_formed (rebuilt blob offset) /\
  firstn 4 (rebuilt blob offset) = firstn 4 blob /\
  acl_entries (rebuilt blob offset) =
    map (shifted_entry offset) (acl_entries blob) /\
  length (rebuilt blob offset) = length blob.
Proof.
  intros Hwf. pose proof Hwf as (Hlen & Hver & Hmod).
  destruct (well_formed_split blob Hwf) as (_ & Hh & Hf & _).
  pose proof (shifted_entries_chunk8 offset _ Hf) as Hm.
  destruct (acl_entries_build _ _ Hh Hm) as (Hb1 & Hb2).
  assert (Hl : length (rebuilt blob offset) = length blob).
  { unfold rebuilt.
    rewrite length_app, Hh, (concat_chunk8_length _ Hm), length_map.
    now rewrite (well_formed_length blob Hwf). }
  repeat split.
  - lia.
  - unfold rebuilt. unfold bytes in *. now rewrite Hb1.
  - now rewrite Hl.
  - exact Hb1.
  - exact Hb2.
  - exact Hl.
Qed.

(** A blob none of whose USER or GROUP ids moves comes back as it is. *)
Lemma modify_acl_blob_unshifted (blob : bytes) (offset : Z) :
  well_formed blob ->
  Forall (fun c => is_id_tag (entry_tag c) = true ->
                   shift_id (entry_id c) offset = entry_id c)
         (acl_entries blob) ->
  modify_acl_blob blob offset = Ok blob.
Proof.
  intros Hwf Hfix.
  destruct (well_formed_split blob Hwf) as (Hsplit & _ & Hf & _).
  assert (Hboth : Forall (fun c => shifted_entry offset c = c /\
                                   id_fits offset c) (acl_entries blob)).
  { rewrite Forall_forall in *. intros c Hin.
    specialize (Hfix c Hin). specialize (Hf c Hin).
    destruct (entry_fields_range c Hf) as (_ & _ & Hi).
    apply in_range_spec in Hi.
    unfold shifted_entry, id_fits.
    destruct (is_id_tag (entry_tag c)).
    - rewrite (Hfix eq_refl). split; [now apply encode_decode_entry|lia].
    - split; [reflexivity|discriminate]. }
  rewrite modify_acl_blob_well_formed by assumption.
  rewrite forallb_entry_fits;
    [|assumption|eapply Forall_impl; [|exact Hboth]; now intros c [_ H]].
  rewrite flat_map_fixed;
    [|eapply Forall_impl; [|exact Hboth]; now intros c [H _]].
  now rewrite <- Hsplit.
Qed.

(** The fields of a shifted entry whose id fits. *)
Lemma shifted_entry_fields (offset : Z) (c : bytes) :
  chunk8 c -> id_fits offset c ->
  entry_tag (shifted_entry offset c) = entry_tag c /\
  entry_perm (shifted_entry offset c) = entry_perm c /\
  entry_id (shifted_entry offset c) =
    if is_id_tag (entry_tag c) then shift_id (entry_id c) offset
    else entry_id c.
Proof.
  intros Hc Hfit.
  destruct (shifted_entry_as_claimed offset c Hc Hfit) as (_ & Ht & Hp & Hi).
  repeat split; try assumption.
  destruct (is_id_tag (entry_tag c)); [assumption|now rewrite Hi].
Qed.

(** The tag and permission bytes of an entry survive the shift. *)
Lemma shifted_entry_prefix (offset : Z) (c : bytes) :
  chunk8 c -> firstn 4 (shifted_entry offset c) = firstn 4 c.
Proof.
  intros Hc. unfold shifted_entry.
  destruct (is_id_tag (entry_tag c)); [|reflexivity].
  rewrite <- (encode_decode_entry c Hc) at 4.
  unfold encode_entry. rewrite !app_assoc.
  rewrite !firstn_app, !length_app, !le_encode_length. cbn [Nat.sub].
  now rewrite !firstn_O, !app_nil_r.
Qed.

(** Well-formedness of a concrete blob, by evaluation. *)
Ltac wf_by_computation :=
  unfold well_formed; repeat split; vm_compute; (reflexivity || lia).

End Acl.
Export Acl.

(** ** The operating-system interface and the per-entry protocol *)

Module Os.

Definition path := string.

(** The fields of [os.lstat]'s result that the program reads. *)
Record stat_result : Type := {
  st_mode : Z;
  st_uid : Z;
  st_gid : Z
}.

(** [stat.S_IFMT], [stat.S_ISLNK] and [stat.S_IMODE]. *)
Definition S_IFMT (mode : Z) : Z := Z.land mode 61440.
Definition S_IFLNK : Z := 40960.
Definition S_ISLNK (mode : Z) : bool := S_IFMT mode =? S_IFLNK.
Definition S_IMODE (mode : Z) : Z := Z.land mode 4095.

(** A system call either fails with [OSError] (its message on the
    left) or succeeds. *)
Definition os_result (A : Type) : Type := (string + A)%type.

(** The system calls the program makes.  Reads answer from the world;
    a successful mutation yields the next world, a failed one leaves
    the world as it was. *)
Record os_iface (W : Type) : Type := {
  os_lstat : path -> W -> os_result stat_result;
  os_listxattr : path -> W -> os_result (list string);
  os_getxattr : path -> string -> W -> os_result bytes;
  os_lchown : path -> Z -> Z -> W -> os_result W;
  os_chmod : path -> Z -> W -> os_result W;
  os_setxattr : path -> string -> bytes -> W -> os_result W
}.
Arguments os_lstat {W} _ _ _.
Arguments os_listxattr {W} _ _ _.
Arguments os_getxattr {W} _ _ _ _.
Arguments os_lchown {W} _ _ _ _ _.
Arguments os_chmod {W} _ _ _ _.
Arguments os_setxattr {W} _ _ _ _ _.

(** Every call made, in order, with its arguments. *)
Inductive syscall : Type :=
| Lstat (p : path)
| Listxattr (p : path)
| Getxattr (p : path) (name : string)
| Lchown (p : path) (uid gid : Z)
| Chmod (p : path) (mode : Z)
| Setxattr (p : path) (name : string) (value : bytes).

Definition is_mutation (c : syscall) : bool :=
  match c with
  | Lchown _ _ _ | Chmod _ _ | Setxattr _ _ _ => true
  | _ => false
  end.

(** The lines the program prints:
    - ["Warning: Could not restore mode on {path}: {e}"] (stderr),
    - ["Warning: Could not restore xattr '{name}' on {path}: {e}"] (stderr),
    - ["Error processing {path}: {e}"] (stderr),
    - ["Shifted: {path} ({old_uid}:{old_gid} -> {new_uid}:{new_gid}) {mode_str}"]
      (stdout, when [DEBUG]). *)
Inductive message : Type :=
| Warning_mode (p : path) (e : string)
| Warning_xattr (name : string) (p : path) (e : string)
| Error_processing (p : path) (e : string)
| Shifted (p : path) (old_uid old_gid new_uid new_gid old_mode : Z).

(** The program state: the world, the log of calls and the two output
    streams. *)
Record state (W : Type) : Type := {
  world : W;
  calls : list syscall;
  stderr : list message;
  stdout : list message
}.
Arguments world {W} _.
Arguments calls {W} _.
Arguments stderr {W} _.
Arguments stdout {W} _.
Arguments Build_state {W} _ _ _ _.

(** Computations that may raise and that change the state. *)
Definition M (W A : Type) : Type := state W -> result A * state W.

Definition ret {W A} (a : A) : M W A := fun s => (Ok a, s).

Definition bind {W A B} (m : M W A) (k : A -> M W B) : M W B :=
  fun s =>
    match m s with
    | (Ok a, s') => k a s'
    | (Raise e, s') => (Raise e, s')
    end.

Declare Scope os_scope.
Delimit Scope os_scope with os.
Notation "x <- m ;; k" := (bind m (fun x => k))
  (at level 61, m at next level, right associativity) : os_scope.
Notation "m ;; k" := (bind m (fun _ => k))
  (at level 61, right associativity) : os_scope.
Local Open Scope os_scope.

(** [try: body / except OSError as e: handler e]. *)
Definition try_except_OSError {W A} (body : M W A) (handler : string -> M W A)
    : M W A :=
  fun s =>
    match body s with
    | (Raise (OSError e), s') => handler e s'
    | r => r
    end.

(** A pure computation that may raise, run in the current state. *)
Definition lift_result {W A} (r : result A) : M W A := fun s => (r, s).

Definition log_call {W} (c : syscall) (s : state W) : state W :=
  Build_state (world s) (calls s ++ [c]) (stderr s) (stdout s).

Definition set_world {W} (w : W) (s : state W) : state W :=
  Build_state w (calls s) (stderr s) (stdout s).

(** A read-only call: logged, then answered from the world. *)
Definition sys_read {W A} (c : syscall) (f : W -> os_result A) : M W A :=
  fun s =>
    let s' := log_call c s in
    match f (world s) with
    | inr a => (Ok a, s')
    | inl e => (Raise (OSError e), s')
    end.

(** A mutating call: logged, then applied to the world. *)
Definition sys_write {W} (c : syscall) (f : W -> os_result W) : M W unit :=
  fun s =>
    let s' := log_call c s in
    match f (world s) with
    | inr w' => (Ok tt, set_world w' s')
    | inl e => (Raise (OSError e), s')
    end.

Definition print_stderr {W} (m : message) : M W unit :=
  fun s => (Ok tt, Build_state (world s) (calls s) (stderr s ++ [m]) (stdout s)).

Definition print_stdout {W} (m : message) : M W unit :=
  fun s => (Ok tt, Build_state (world s) (calls s) (stderr s) (stdout s ++ [m])).

(** *** Python dictionaries with string keys, in insertion order *)

Definition dict := list (string * bytes).

(** [d[name] = value]: an existing key keeps its position. *)
Fixpoint dict_set (d : dict) (name : string) (value : bytes) : dict :=
  match d with
  | [] => [(name, value)]
  | (k, v) :: rest =>
      if (k =? name)%string then (k, value) :: rest
      else (k, v) :: dict_set rest name value
  end.

Fixpoint dict_get (d : dict) (name : string) : option bytes :=
  match d with
  | [] => None
  | (k, v) :: rest => if (k =? name)%string then Some v else dict_get rest name
  end.

(** [name in acl_xattrs]. *)
Definition in_acl_xattrs (name : string) : bool :=
  (name =? "system.posix_acl_access")%string ||
  (name =? "system.posix_acl_default")%string.

Section Protocol.

Context {W : Type} (os : os_iface W).

Definition lstat (p : path) : M W stat_result :=
  sys_read (Lstat p) (os_lstat os p).
Definition listxattr (p : path) : M W (list string) :=
  sys_read (Listxattr p) (os_listxattr os p).
Definition getxattr (p : path) (name : string) : M W bytes :=
  sys_read (Getxattr p name) (os_getxattr os p name).
Definition lchown (p : path) (uid gid : Z) : M W unit :=
  sys_write (Lchown p uid gid) (os_lchown os p uid gid).
Definition chmod (p : path) (mode : Z) : M W unit :=
  sys_write (Chmod p mode) (os_chmod os p mode).
Definition setxattr (p : path) (name : string) (value : bytes) : M W unit :=
  sys_write (Setxattr p name value) (os_setxattr os p name value).

(** The [for name in ...] loop of lines 91-100, threading
    [xattrs_backup]; a failed read leaves the dictionary as it is. *)
Fixpoint backup_loop (p : path) (offset : Z) (names : list string)
    (xattrs_backup : dict) : M W dict :=
  match names with
  | [] => ret xattrs_backup
  | name :: rest =>
      xattrs_backup' <-
        try_except_OSError
          (value <- getxattr p name ;;
           if in_acl_xattrs name then
             shifted <- lift_result (modify_acl_blob value offset) ;;
             ret (dict_set xattrs_backup name shifted)
           else ret (dict_set xattrs_backup name value))
          (fun _ => ret xattrs_backup) ;;
      backup_loop p offset rest xattrs_backup'
  end.

(** Step 2, lines 85-102.  Only [os.listxattr] can raise out of the
    loop, so the handler finds the dictionary still empty. *)
Definition read_xattrs (p : path) (offset : Z) : M W dict :=
  try_except_OSError
    (names <- listxattr p ;; backup_loop p offset names [])
    (fun _ => ret []).

(** Step 4a, lines 111-115. *)
Definition restore_mode (p : path) (is_symlink : bool) (old_mode : Z)
    : M W unit :=
  if negb is_symlink then
    try_except_OSError (chmod p (S_IMODE old_mode))
                       (fun e => print_stderr (Warning_mode p e))
  else ret tt.

(** Step 4b, lines 118-122. *)
Fixpoint restore_xattrs (p : path) (items : dict) : M W unit :=
  match items with
  | [] => ret tt
  | (name, value) :: rest =>
      try_except_OSError (setxattr p name value)
                         (fun e => print_stderr (Warning_xattr name p e)) ;;
      restore_xattrs p rest
  end.

(** [shift_file(path, offset)], lines 64-130; [debug] is the global
    [DEBUG]. *)
Definition shift_file (debug : bool) (p : path) (offset : Z) : M W unit :=
  try_except_OSError
    (stat_info <- lstat p ;;
     let old_uid := st_uid stat_info in
     let old_gid := st_gid stat_info in
     let old_mode := st_mode stat_info in
     let is_symlink := S_ISLNK old_mode in
     let new_uid := shift_id old_uid offset in
     let new_gid := shift_id old_gid offset in
     if (new_uid =? old_uid) && (new_gid =? old_gid) then ret tt else
     xattrs_backup <- read_xattrs p offset ;;
     lchown p new_uid new_gid ;;
     restore_mode p is_symlink old_mode ;;
     restore_xattrs p xattrs_backup ;;
     if debug
     then print_stdout (Shifted p old_uid old_gid new_uid new_gid old_mode)
     else ret tt)
    (fun e => print_stderr (Error_processing p e)).

(** *** What a run does, step by step *)

Definition add_calls (l : list syscall) (s : state W) : state W :=
  Build_state (world s) (calls s ++ l) (stderr s) (stdout s).

Definition add_stderr (m : message) (s : state W) : state W :=
  Build_state (world s) (calls s) (stderr s ++ [m]) (stdout s).

Definition add_stdout (m : message) (s : state W) : state W :=
  Build_state (world s) (calls s) (stderr s) (stdout s ++ [m]).

Lemma world_add_calls (l : list syscall) (s : state W) :
  world (add_calls l s) = world s.
Proof. reflexivity. Qed.

Lemma add_calls_nil (s : state W) : add_calls [] s = s.
Proof. destruct s. unfold add_calls. cbn. now rewrite app_nil_r. Qed.

Lemma add_calls_add_calls (l1 l2 : list syscall) (s : state W) :
  add_calls l2 (add_calls l1 s) = add_calls (l1 ++ l2) s.
Proof. unfold add_calls. cbn. now rewrite app_assoc. Qed.

(** The value stored for an attribute that was read. *)
Definition backup_value (offset : Z) (name : string) (value : bytes) : bytes :=
  if in_acl_xattrs name then shifted_blob value offset else value.

(** One iteration of the backup loop in world [w]. *)
Definition backup_entry (w : W) (p : path) (offset : Z) (acc : dict)
    (name : string) : dict :=
  match os_getxattr os p name w with
  | inr value => dict_set acc name (backup_value offset name value)
  | inl _ => acc
  end.

Definition backup_of (w : W) (p : path) (offset : Z) (names : list string)
    (acc : dict) : dict :=
  fold_left (backup_entry w p offset) names acc.

Lemma backup_loop_run (p : path) (offset : Z) (names : list string) :
  forall (acc : dict) (s : state W),
  backup_loop p offset names acc s =
  (Ok (backup_of (world s) p offset names acc),
   add_calls (map (Getxattr p) names) s).
Proof.
  induction names as [|name rest IH]; intros acc s.
  - cbn. now rewrite add_calls_nil.
  - cbn [backup_loop map]. unfold bind at 1.
    assert (Hstep :
      try_except_OSError
        (value <- getxattr p name ;;
         if in_acl_xattrs name then
           shifted <- lift_result (modify_acl_blob value offset) ;;
           ret (dict_set acc name shifted)
         else ret (dict_set acc name value))
        (fun _ => ret acc) s =
      (Ok (backup_entry (world s) p offset acc name),
       add_calls [Getxattr p name] s)).
    { unfold try_except_OSError, bind, getxattr, sys_read, backup_entry,
        backup_value, lift_result, ret.
      destruct (os_getxattr os p name (world s)) as [e|value];
        [reflexivity|].
      destruct (in_acl_xattrs name); [|reflexivity].
      now rewrite modify_acl_blob_total. }
    rewrite Hstep, IH, add_calls_add_calls. reflexivity.
Qed.

(** The attribute names the backup loop goes through. *)
Definition listed_names (w : W) (p : path) : list string :=
  match os_listxattr os p w with
  | inr names => names
  | inl _ => []
  end.

Lemma read_xattrs_run (p : path) (offset : Z) (s : state W) :
  read_xattrs p offset s =
  (Ok (backup_of (world s) p offset (listed_names (world s) p) []),
   add_calls (Listxattr p :: map (Getxattr p) (listed_names (world s) p)) s).
Proof.
  unfold read_xattrs, try_except_OSError, bind, listxattr, sys_read,
    listed_names.
  destruct (os_listxattr os p (world s)) as [e|names]; [reflexivity|].
  rewrite backup_loop_run.
  change (log_call (Listxattr p) s) with (add_calls [Listxattr p] s).
  now rewrite add_calls_add_calls.
Qed.

(** One iteration of the restore loop. *)
Definition restore_entry (p : path) (s : state W) (item : string * bytes)
    : state W :=
  let '(name, value) := item in
  let s' := add_calls [Setxattr p name value] s in
  match os_setxattr os p name value (world s) with
  | inr w' => set_world w' s'
  | inl e => add_stderr (Warning_xattr name p e) s'
  end.

Lemma restore_xattrs_run (p : path) (items : dict) :
  forall s : state W,
  restore_xattrs p items s = (Ok tt, fold_left (restore_entry p) items s).
Proof.
  induction items as [|[name value] rest IH]; intros s; [reflexivity|].
  cbn [restore_xattrs fold_left]. unfold bind at 1.
  assert (Hstep :
    try_except_OSError (setxattr p name value)
      (fun e => print_stderr (Warning_xattr name p e)) s =
    (Ok tt, restore_entry p s (name, value))).
  { unfold try_except_OSError, setxattr, sys_write, restore_entry,
      print_stderr.
    now destruct (os_setxattr os p name value (world s)). }
  now rewrite Hstep, IH.
Qed.

Definition setxattr_call (p : path) (item : string * bytes) : syscall :=
  Setxattr p (fst item) (snd item).

Lemma restore_calls (p : path) (items : dict) :
  forall s : state W,
  calls (fold_left (restore_entry p) items s) =
  calls s ++ map (setxattr_call p) items /\
  stdout (fold_left (restore_entry p) items s) = stdout s.
Proof.
  induction items as [|[name value] rest IH]; intros s.
  - cbn. now rewrite app_nil_r.
  - cbn [fold_left map]. destruct (IH (restore_entry p s (name, value)))
      as (-> & ->).
    unfold restore_entry.
    destruct (os_setxattr os p name value (world s)); cbn;
      now rewrite <- app_assoc.
Qed.

(** The state after the mode restoration of step 4a. *)
Definition restore_mode_state (p : path) (is_symlink : bool) (old_mode : Z)
    (s : state W) : state W :=
  if is_symlink then s else
  let s' := add_calls [Chmod p (S_IMODE old_mode)] s in
  match os_chmod os p (S_IMODE old_mode) (world s) with
  | inr w' => set_world w' s'
  | inl e => add_stderr (Warning_mode p e) s'
  end.

Lemma restore_mode_run (p : path) (is_symlink : bool) (old_mode : Z)
    (s : state W) :
  restore_mode p is_symlink old_mode s =
  (Ok tt, restore_mode_state p is_symlink old_mode s).
Proof.
  unfold restore_mode, restore_mode_state.
  destruct is_symlink; [reflexivity|]. cbn [negb].
  unfold try_except_OSError, chmod, sys_write, print_stderr.
  now destruct (os_chmod os p (S_IMODE old_mode) (world s)).
Qed.

(** The ownership [shift_file] computes leaves the entry as it is. *)
Definition unchanged (offset : Z) (st : stat_result) : bool :=
  (shift_id (st_uid st) offset =? st_uid st) &&
  (shift_id (st_gid st) offset =? st_gid st).

(** The state in which [os.lchown] is called. *)
Definition state_before_lchown (p : path) (s : state W) : state W :=
  add_calls (Lstat p :: Listxattr p ::
             map (Getxattr p) (listed_names (world s) p)) s.

(** The state after a successful [os.lchown] that left world [w1]. *)
Definition state_after_lchown (p : path) (offset : Z) (st : stat_result)
    (w1 : W) (s : state W) : state W :=
  set_world w1
    (add_calls [Lchown p (shift_id (st_uid st) offset)
                         (shift_id (st_gid st) offset)]
               (state_before_lchown p s)).

(** The state after steps 4a and 4b. *)
Definition state_restored (p : path) (offset : Z) (st : stat_result)
    (w1 : W) (s : state W) : state W :=
  fold_left (restore_entry p)
    (backup_of (world s) p offset (listed_names (world s) p) [])
    (restore_mode_state p (S_ISLNK (st_mode st)) (st_mode st)
       (state_after_lchown p offset st w1 s)).

(** The early return of line 82. *)
Lemma shift_file_unchanged_run (debug : bool) (p : path) (offset : Z)
    (s : state W) (st : stat_result) :
  os_lstat os p (world s) = inr st -> unchanged offset st = true ->
  shift_file debug p offset s = (Ok tt, add_calls [Lstat p] s).
Proof.
  intros Hst Hun. unfold shift_file, try_except_OSError, bind at 1.
  unfold lstat, sys_read. rewrite Hst.
  unfold unchanged in Hun. now rewrite Hun.
Qed.

(** A failing [os.lstat]: the entry is reported and left alone. *)
Lemma shift_file_lstat_error_run (debug : bool) (p : path) (offset : Z)
    (s : state W) (e : string) :
  os_lstat os p (world s) = inl e ->
  shift_file debug p offset s =
  (Ok tt, add_stderr (Error_processing p e) (add_calls [Lstat p] s)).
Proof.
  intros Hst. unfold shift_file, try_except_OSError, bind at 1.
  unfold lstat, sys_read. now rewrite Hst.
Qed.

(** A failing [os.lchown]: the entry is reported; nothing was changed. *)
Lemma shift_file_lchown_error_run (debug : bool) (p : path) (offset : Z)
    (s : state W) (st : stat_result) (e : string) :
  os_lstat os p (world s) = inr st -> unchanged offset st = false ->
  os_lchown os p (shift_id (st_uid st) offset) (shift_id (st_gid st) offset)
            (world s) = inl e ->
  shift_file debug p offset s =
  (Ok tt,
   add_stderr (Error_processing p e)
     (add_calls [Lchown p (shift_id (st_uid st) offset)
                          (shift_id (st_gid st) offset)]
                (state_before_lchown p s))).
Proof.
  intros Hst Hun Hch. unfold shift_file, try_except_OSError, bind at 1.
  unfold lstat, sys_read. rewrite Hst.
  unfold unchanged in Hun. rewrite Hun.
  unfold bind at 1. rewrite read_xattrs_run.
  change (log_call (Lstat p) s) with (add_calls [Lstat p] s).
  rewrite add_calls_add_calls. cbn [app].
  unfold bind at 1. unfold lchown, sys_write.
  now rewrite world_add_calls, Hch.
Qed.

(** The full protocol when [os.lchown] succeeds. *)
Lemma shift_file_changed_run (debug : bool) (p : path) (offset : Z)
    (s : state W) (st : stat_result) (w1 : W) :
  os_lstat os p (world s) = inr st -> unchanged offset st = false ->
  os_lchown os p (shift_id (st_uid st) offset) (shift_id (st_gid st) offset)
            (world s) = inr w1 ->
  shift_file debug p offset s =
  (Ok tt,
   if debug
   then add_stdout (Shifted p (st_uid st) (st_gid st)
                            (shift_id (st_uid st) offset)
                            (shift_id (st_gid st) offset) (st_mode st))
                   (state_restored p offset st w1 s)
   else state_restored p offset st w1 s).
Proof.
  intros Hst Hun Hch. unfold shift_file, try_except_OSError, bind at 1.
  unfold lstat, sys_read. rewrite Hst.
  unfold unchanged in Hun. rewrite Hun.
  unfold bind at 1. rewrite read_xattrs_run.
  change (log_call (Lstat p) s) with (add_calls [Lstat p] s).
  rewrite add_calls_add_calls. cbn [app].
  unfold bind at 1. unfold lchown, sys_write.
  rewrite world_add_calls, Hch.
  unfold bind at 1. rewrite restore_mode_run.
  unfold bind at 1. rewrite restore_xattrs_run.
  unfold state_restored, state_after_lchown, state_before_lchown.
  destruct debug; reflexivity.
Qed.

(** *** The backup dictionary *)





(** *** The calls of a run that changes the owner *)

(** The call of step 4a, if any. *)
Definition mode_calls (p : path) (st : stat_result) : list syscall :=
  if S_ISLNK (st_mode st) then [] else [Chmod p (S_IMODE (st_mode st))].

Lemma restore_mode_state_calls (p : path) (st : stat_result) (s : state W) :
  calls (restore_mode_state p (S_ISLNK (st_mode st)) (st_mode st) s) =
  calls s ++ mode_calls p st.
Proof.
  unfold restore_mode_state, mode_calls.
  destruct (S_ISLNK (st_mode st)); [now rewrite app_nil_r|].
  now destruct (os_chmod os p (S_IMODE (st_mode st)) (world s)).
Qed.

Lemma shift_file_changed_calls (debug : bool) (p : path) (offset : Z)
    (s : state W) (st : stat_result) (w1 : W) :
  os_lstat os p (world s) = inr st -> unchanged offset st = false ->
  os_lchown os p (shift_id (st_uid st) offset) (shift_id (st_gid st) offset)
            (world s) = inr w1 ->
  calls (snd (shift_file debug p offset s)) =
  calls s ++
  (Lstat p :: Listxattr p :: map (Getxattr p) (listed_names (world s) p)) ++
  [Lchown p (shift_id (st_uid st) offset) (shift_id (st_gid st) offset)] ++
  mode_calls p st ++
  map (setxattr_call p)
      (backup_of (world s) p offset (listed_names (world s) p) []).
Proof.
  intros Hst Hun Hch.
  rewrite (shift_file_changed_run debug p offset s st w1 Hst Hun Hch).
  cbn [snd].
  assert (Hc : calls (state_restored p offset st w1 s) =
    calls s ++
    (Lstat p :: Listxattr p :: map (Getxattr p) (listed_names (world s) p)) ++
    [Lchown p (shift_id (st_uid st) offset) (shift_id (st_gid st) offset)] ++
    mode_calls p st ++
    map (setxattr_call p)
        (backup_of (world s) p offset (listed_names (world s) p) [])).
  { unfold state_restored.
    destruct (restore_calls p
      (backup_of (world s) p offset (listed_names (world s) p) [])
      (restore_mode_state p (S_ISLNK (st_mode st)) (st_mode st)
         (state_after_lchown p offset st w1 s))) as (-> & _).
    rewrite restore_mode_state_calls.
    unfold state_after_lchown, state_before_lchown. cbn [calls set_world
      add_calls].
    now rewrite <- !app_assoc. }
  now destruct debug.
Qed.

Lemma unchanged_false_iff (offset : Z) (st : stat_result) :
  unchanged offset st = false <->
  shift_id (st_uid st) offset <> st_uid st \/
  shift_id (st_gid st) offset <> st_gid st.
Proof.
  unfold unchanged. rewrite andb_false_iff, !Z.eqb_neq. tauto.
Qed.

Lemma unchanged_true_iff (offset : Z) (st : stat_result) :
  unchanged offset st = true <->
  shift_id (st_uid st) offset = st_uid st /\
  shift_id (st_gid st) offset = st_gid st.
Proof.
  unfold unchanged. rewrite andb_true_iff, !Z.eqb_eq. tauto.
Qed.



(** *** The shapes of a run *)

(** The path a call is made on. *)
Definition call_path (c : syscall) : path :=
  match c with
  | Lstat p | Listxattr p | Getxattr p _ | Lchown p _ _ | Chmod p _
  | Setxattr p _ _ => p
  end.

(** The four ways a run can go: [lstat] fails; the owner stays; [lchown]
    fails; [lchown] succeeds. *)
Lemma shift_file_cases (debug : bool) (p : path) (offset : Z) (s : state W) :
  (exists e,
     os_lstat os p (world s) = inl e /\
     shift_file debug p offset s =
     (Ok tt, add_stderr (Error_processing p e) (add_calls [Lstat p] s))) \/
  (exists st,
     os_lstat os p (world s) = inr st /\ unchanged offset st = true /\
     shift_file debug p offset s = (Ok tt, add_calls [Lstat p] s)) \/
  (exists st e,
     os_lstat os p (world s) = inr st /\ unchanged offset st = false /\
     os_lchown os p (shift_id (st_uid st) offset)
               (shift_id (st_gid st) offset) (world s) = inl e /\
     shift_file debug p offset s =
     (Ok tt,
      add_stderr (Error_processing p e)
        (add_calls [Lchown p (shift_id (st_uid st) offset)
                             (shift_id (st_gid st) offset)]
                   (state_before_lchown p s)))) \/
  (exists st w1,
     os_lstat os p (world s) = inr st /\ unchanged offset st = false /\
     os_lchown os p (shift_id (st_uid st) offset)
               (shift_id (st_gid st) offset) (world s) = inr w1 /\
     shift_file debug p offset s =
     (Ok tt,
      if debug
      then add_stdout (Shifted p (st_uid st) (st_gid st)
                               (shift_id (st_uid st) offset)
                               (shift_id (st_gid st) offset) (st_mode st))
                      (state_restored p offset st w1 s)
      else state_restored p offset st w1 s)).
Proof.
  destruct (os_lstat os p (world s)) as [e|st] eqn:Hst.
  - left. exists e. split; [reflexivity|].
    now apply shift_file_lstat_error_run.
  - right. destruct (unchanged offset st) eqn:Hun.
    + left. exists st. split; [reflexivity|split; [assumption|]].
      now apply shift_file_unchanged_run with (st := st).
    + right.
      destruct (os_lchown os p (shift_id (st_uid st) offset)
                  (shift_id (st_gid st) offset) (world s)) as [e|w1] eqn:Hch.
      * left. exists st, e.
        split; [reflexivity|split; [assumption|split; [assumption|]]].
        now apply shift_file_lchown_error_run.
      * right. exists st, w1.
        split; [reflexivity|split; [assumption|split; [assumption|]]].
        now apply shift_file_changed_run.
Qed.


Lemma restore_stderr_stdout_mode (p : path) (st : stat_result) (s : state W) :
  stdout (restore_mode_state p (S_ISLNK (st_mode st)) (st_mode st) s) =
  stdout s.
Proof.
  unfold restore_mode_state. destruct (S_ISLNK (st_mode st)); [reflexivity|].
  now destruct (os_chmod os p (S_IMODE (st_mode st)) (world s)).
Qed.

Lemma state_restored_stdout (p : path) (offset : Z) (st : stat_result)
    (w1 : W) (s : state W) :
  stdout (state_restored p offset st w1 s) = stdout s.
Proof.
  unfold state_restored.
  destruct (restore_calls p
    (backup_of (world s) p offset (listed_names (world s) p) [])
    (restore_mode_state p (S_ISLNK (st_mode st)) (st_mode st)
       (state_after_lchown p offset st w1 s))) as (_ & ->).
  now rewrite restore_stderr_stdout_mode.
Qed.

Lemma state_restored_calls (p : path) (offset : Z) (st : stat_result)
    (w1 : W) (s : state W) :
  calls (state_restored p offset st w1 s) =
  calls s ++
  (Lstat p :: Listxattr p :: map (Getxattr p) (listed_names (world s) p)) ++
  [Lchown p (shift_id (st_uid st) offset) (shift_id (st_gid st) offset)] ++
  mode_calls p st ++
  map (setxattr_call p)
      (backup_of (world s) p offset (listed_names (world s) p) []).
Proof.
  unfold state_restored.
  destruct (restore_calls p
    (backup_of (world s) p offset (listed_names (world s) p) [])
    (restore_mode_state p (S_ISLNK (st_mode st)) (st_mode st)
       (state_after_lchown p offset st w1 s))) as (-> & _).
  rewrite restore_mode_state_calls.
  unfold state_after_lchown, state_before_lchown.
  cbn [calls set_world add_calls]. now rewrite <- !app_assoc.
Qed.

(** The line [DEBUG] makes a run print: one for an entry whose owner
    was changed, none otherwise. *)
Definition shifted_line (p : path) (offset : Z) (w : W) : list message :=
  match os_lstat os p w with
  | inr st =>
      if unchanged offset st then []
      else match os_lchown os p (shift_id (st_uid st) offset)
                           (shift_id (st_gid st) offset) w with
           | inr _ => [Shifted p (st_uid st) (st_gid st)
                               (shift_id (st_uid st) offset)
                               (shift_id (st_gid st) offset) (st_mode st)]
           | inl _ => []
           end
  | inl _ => []
  end.

Lemma shift_file_stdout_run (debug : bool) (p : path) (offset : Z)
    (s : state W) :
  stdout (snd (shift_file debug p offset s)) =
  stdout s ++ (if debug then shifted_line p offset (world s) else []).
Proof.
  unfold shifted_line.
  destruct (shift_file_cases debug p offset s)
    as [(e & -> & ->)|[(st & -> & -> & ->)|[(st & e & -> & -> & -> & ->)|
        (st & w1 & -> & -> & -> & ->)]]]; cbn [snd].
  - destruct debug; cbn; now rewrite app_nil_r.
  - destruct debug; cbn; now rewrite app_nil_r.
  - destruct debug; cbn; now rewrite app_nil_r.
  - destruct debug.
    + cbn [stdout add_stdout]. now rewrite state_restored_stdout.
    + now rewrite state_restored_stdout, app_nil_r.
Qed.

Lemma setxattr_calls_path (p : path) (items : dict) :
  Forall (fun c => call_path c = p) (map (setxattr_call p) items).
Proof. apply Forall_map. now apply Forall_forall. Qed.

Lemma getxattr_calls_path (p : path) (names : list string) :
  Forall (fun c => call_path c = p) (map (Getxattr p) names).
Proof. apply Forall_map. now apply Forall_forall. Qed.

Lemma mode_calls_path (p : path) (st : stat_result) :
  Forall (fun c => call_path c = p) (mode_calls p st).
Proof.
  unfold mode_calls. destruct (S_ISLNK (st_mode st)); repeat constructor.
Qed.

(** Every call of a run is made on the path it was given. *)
Lemma shift_file_calls_run (debug : bool) (p : path) (offset : Z)
    (s : state W) :
  exists new,
    calls (snd (shift_file debug p offset s)) = calls s ++ new /\
    Forall (fun c => call_path c = p) new.
Proof.
  destruct (shift_file_cases debug p offset s)
    as [(e & _ & ->)|[(st & _ & _ & ->)|[(st & e & _ & _ & _ & ->)|
        (st & w1 & _ & _ & _ & ->)]]]; cbn [snd].
  - exists [Lstat p]. split; [reflexivity|now repeat constructor].
  - exists [Lstat p]. split; [reflexivity|now repeat constructor].
  - eexists. cbn [calls add_stderr add_calls state_before_lchown].
    rewrite <- app_assoc. split; [reflexivity|].
    apply Forall_app. split; [|now repeat constructor].
    do 2 (constructor; [reflexivity|]). apply getxattr_calls_path.
  - eexists. split.
    + destruct debug; cbn [calls add_stdout]; apply state_restored_calls.
    + repeat (apply Forall_app; split);
        try apply getxattr_calls_path; try apply mode_calls_path;
        try apply setxattr_calls_path; try now repeat constructor.
      do 2 (constructor; [reflexivity|]). apply getxattr_calls_path.
Qed.

(** *** The backup when every listed attribute can be read *)

Lemma dict_set_fresh (d : dict) (k : string) (v : bytes) :
  ~ In k (map fst d) -> dict_set d k v = d ++ [(k, v)].
Proof.
  induction d as [|[k0 v0] rest IH]; intros Hk; [reflexivity|].
  cbn [dict_set app]. cbn [map fst In] in Hk.
  destruct (String.eqb_spec k0 k) as [->|Hne]; [tauto|].
  rewrite IH; [reflexivity|tauto].
Qed.

(** What is stored for the names [names] read as [values]. *)
Definition backed_up (offset : Z) (names : list string) (values : list bytes)
    : dict :=
  map (fun nv => (fst nv, backup_value offset (fst nv) (snd nv)))
      (combine names values).

Lemma backed_up_keys (offset : Z) (names : list string)
    (values : list bytes) :
  length names = length values ->
  map fst (backed_up offset names values) = names.
Proof.
  revert values. induction names as [|n names IH]; intros [|v values] Hl;
    try discriminate; [reflexivity|].
  cbn. f_equal. apply IH. now injection Hl.
Qed.

Lemma backup_of_all_readable (w : W) (p : path) (offset : Z)
    (names : list string) (values : list bytes) :
  Forall2 (fun n v => os_getxattr os p n w = inr v) names values ->
  NoDup names ->
  forall acc : dict,
  (forall n, In n names -> ~ In n (map fst acc)) ->
  backup_of w p offset names acc = acc ++ backed_up offset names values.
Proof.
  induction 1 as [|n v names values Hn Hrest IH]; intros Hnd acc Hacc.
  - cbn. now rewrite app_nil_r.
  - inversion Hnd as [|? ? Hnotin Hnd']; subst.
    unfold backup_of in *. cbn [fold_left]. unfold backup_entry at 2.
    rewrite Hn, dict_set_fresh by (apply Hacc; now left).
    rewrite IH; [|assumption|].
    + unfold backed_up. cbn [combine map fst snd].
      now rewrite <- app_assoc.
    + intros m Hm. rewrite map_app, in_app_iff. cbn [map fst In].
      intros [Hin|[Heq|[]]].
      * apply (Hacc m); [now right|assumption].
      * subst. contradiction.
Qed.

(** *** What a run reports after the ownership change *)

Definition is_warning (m : message) : bool :=
  match m with
  | Warning_mode _ _ | Warning_xattr _ _ _ => true
  | _ => false
  end.

Lemma restore_stderr (p : path) (items : dict) :
  forall s : state W,
  exists ws,
    stderr (fold_left (restore_entry p) items s) = stderr s ++ ws /\
    forallb is_warning ws = true /\
    (length ws <= length items)%nat.
Proof.
  induction items as [|[name value] rest IH]; intros s.
  - exists []. cbn. rewrite app_nil_r. repeat split. lia.
  - cbn [fold_left]. destruct (IH (restore_entry p s (name, value)))
      as (ws & -> & Hws & Hlen).
    unfold restore_entry.
    destruct (os_setxattr os p name value (world s)) as [e|w'].
    + exists (Warning_xattr name p e :: ws). cbn [stderr add_stderr add_calls].
      rewrite <- app_assoc. cbn [app forallb is_warning andb length].
      repeat split; [assumption|lia].
    + exists ws. cbn [stderr set_world add_calls length].
      repeat split; [assumption|lia].
Qed.

Lemma state_restored_stderr (p : path) (offset : Z) (st : stat_result)
    (w1 : W) (s : state W) :
  exists ws,
    stderr (state_restored p offset st w1 s) = stderr s ++ ws /\
    forallb is_warning ws = true.
Proof.
  unfold state_restored.
  destruct (restore_stderr p
    (backup_of (world s) p offset (listed_names (world s) p) [])
    (restore_mode_state p (S_ISLNK (st_mode st)) (st_mode st)
       (state_after_lchown p offset st w1 s))) as (ws & -> & Hws & _).
  unfold restore_mode_state.
  destruct (S_ISLNK (st_mode st)).
  - exists ws. now split.
  - destruct (os_chmod os p (S_IMODE (st_mode st))
                (world (state_after_lchown p offset st w1 s))) as [e|w2].
    + exists (Warning_mode p e :: ws).
      cbn [stderr add_stderr add_calls state_after_lchown set_world
           state_before_lchown].
      rewrite <- app_assoc. now split.
    + exists ws. now split.
Qed.

End Protocol.

Lemma S_IMODE_no_type_bits (mode : Z) : S_IFMT (S_IMODE mode) = 0.
Proof.
  unfold S_IFMT, S_IMODE. rewrite <- Z.land_assoc.
  change (Z.land 4095 61440) with 0. apply Z.land_0_r.
Qed.

End Os.
Export Os.

(** ** A small kernel for the end-to-end scenarios

    One inode per path.  Changing the owner of an entry that is not a
    symlink clears its setuid and setgid bits and its capability
    attribute (the side effect line 105 of the program speaks of);
    [chmod] replaces the permission bits and keeps the type bits. *)

Module Kernel.

Record inode : Type := {
  i_mode : Z;
  i_uid : Z;
  i_gid : Z;
  i_xattrs : dict;
  (** names of attributes whose value cannot be read *)
  i_unreadable : list string
}.

Definition fs := list (path * inode).

Fixpoint lookup (p : path) (w : fs) : option inode :=
  match w with
  | [] => None
  | (q, i) :: rest => if (q =? p)%string then Some i else lookup p rest
  end.

Fixpoint update (p : path) (f : inode -> inode) (w : fs) : fs :=
  match w with
  | [] => []
  | (q, i) :: rest =>
      if (q =? p)%string then (q, f i) :: rest
      else (q, i) :: update p f rest
  end.

Definition on_inode {A} (p : path) (w : fs) (f : inode -> os_result A)
    : os_result A :=
  match lookup p w with
  | Some i => f i
  | None => inl "No such file or directory"%string
  end.

Definition k_lstat (p : path) (w : fs) : os_result stat_result :=
  on_inode p w (fun i =>
    inr {| st_mode := i_mode i; st_uid := i_uid i; st_gid := i_gid i |}).

Definition k_listxattr (p : path) (w : fs) : os_result (list string) :=
  on_inode p w (fun i => inr (map fst (i_xattrs i))).

Definition k_getxattr (p : path) (name : string) (w : fs) : os_result bytes :=
  on_inode p w (fun i =>
    if existsb (String.eqb name) (i_unreadable i)
    then inl "Permission denied"%string
    else match dict_get (i_xattrs i) name with
         | Some v => inr v
         | None => inl "No data available"%string
         end).

(** Setuid and setgid: octal 6000. *)
Definition S_ISUID_ISGID : Z := 3072.

Definition chown_inode (uid gid : Z) (i : inode) : inode :=
  if S_ISLNK (i_mode i) then
    {| i_mode := i_mode i; i_uid := uid; i_gid := gid;
       i_xattrs := i_xattrs i; i_unreadable := i_unreadable i |}
  else
    {| i_mode := Z.ldiff (i_mode i) S_ISUID_ISGID;
       i_uid := uid; i_gid := gid;
       i_xattrs :=
         filter (fun kv => negb (fst kv =? "security.capability")%string)
                (i_xattrs i);
       i_unreadable := i_unreadable i |}.

Definition k_lchown (p : path) (uid gid : Z) (w : fs) : os_result fs :=
  on_inode p w (fun _ => inr (update p (chown_inode uid gid) w)).

Definition chmod_inode (mode : Z) (i : inode) : inode :=
  {| i_mode := Z.lor (S_IFMT (i_mode i)) mode;
     i_uid := i_uid i; i_gid := i_gid i;
     i_xattrs := i_xattrs i; i_unreadable := i_unreadable i |}.

Definition k_chmod (p : path) (mode : Z) (w : fs) : os_result fs :=
  on_inode p w (fun _ => inr (update p (chmod_inode mode) w)).

Definition setxattr_inode (name : string) (value : bytes) (i : inode)
    : inode :=
  {| i_mode := i_mode i; i_uid := i_uid i; i_gid := i_gid i;
     i_xattrs := dict_set (i_xattrs i) name value;
     i_unreadable := i_unreadable i |}.

Definition k_setxattr (p : path) (name : string) (value : bytes) (w : fs)
    : os_result fs :=
  on_inode p w (fun _ => inr (update p (setxattr_inode name value) w)).

Definition kernel : os_iface fs := {|
  os_lstat := k_lstat;
  os_listxattr := k_listxattr;
  os_getxattr := k_getxattr;
  os_lchown := k_lchown;
  os_chmod := k_chmod;
  os_setxattr := k_setxattr
|}.

Definition boot (w : fs) : state fs :=
  {| world := w; calls := []; stderr := []; stdout := [] |}.

(** A regular file, mode 0o106755 (setuid, setgid, rwxr-xr-x), owned
    by 1000:1000, with no extended attributes. *)
Definition setuid_file : inode :=
  {| i_mode := 36333; i_uid := 1000; i_gid := 1000;
     i_xattrs := []; i_unreadable := [] |}.

Definition setuid_fs : fs := [("/rootfs/bin/su"%string, setuid_file)].

(** A symlink, mode 0o120777, owned by 1000:1000. *)
Definition symlink_fs : fs :=
  [("/rootfs/bin/sh"%string,
    {| i_mode := 41471; i_uid := 1000; i_gid := 1000;
       i_xattrs := []; i_unreadable := [] |})].


(** The state the program leaves after [shift_file] on [p]. *)
Definition after_shift (p : path) (offset : Z) (s : state fs) : state fs :=
  snd (shift_file kernel false p offset s).


(** The same kernel over a file system without extended attributes. *)
Definition no_xattr_kernel : os_iface fs := {|
  os_lstat := k_lstat;
  os_listxattr := fun _ _ => inl "Operation not supported"%string;
  os_getxattr := fun _ _ _ => inl "Operation not supported"%string;
  os_lchown := k_lchown;
  os_chmod := k_chmod;
  os_setxattr := fun _ _ _ _ => inl "Operation not supported"%string
|}.

(** A regular file, mode 0o100644, with a comment and an access ACL
    whose USER entry has id 1000. *)
Definition acl_fs : fs :=
  [("/rootfs/etc/motd"%string,
    {| i_mode := 33188; i_uid := 1000; i_gid := 1000;
       i_xattrs := [("user.comment"%string, [x68; x69]);
                    ("system.posix_acl_access"%string, sample_blob)];
       i_unreadable := [] |})].

(** The same kernel when attributes cannot be written. *)
Definition sealed_kernel : os_iface fs := {|
  os_lstat := k_lstat;
  os_listxattr := k_listxattr;
  os_getxattr := k_getxattr;
  os_lchown := k_lchown;
  os_chmod := k_chmod;
  os_setxattr := fun _ _ _ _ => inl "Operation not permitted"%string
|}.

End Kernel.

(** ** The traversal *)

Module Walk.

Local Open Scope string_scope.

Definition ends_with_slash (a : string) : bool :=
  match String.get (String.length a - 1) a with
  | Some c => Ascii.eqb c "/"
  | None => false
  end.

(** [os.path.join(a, b)] on POSIX. *)
Definition join (a b : string) : string :=
  if String.prefix "/" b then b
  else if (a =? "") || ends_with_slash a then a ++ b
  else a ++ "/" ++ b.

Local Close Scope string_scope.

(** What [os.scandir] shows of a tree: an entry is a directory (a real
    one or a symlink to one, with the entries a listing gives) or it is
    not.  Whether a path is a symlink is asked of the file system. *)
#[warnings="-register-all"]
Inductive node : Type :=
| NonDir
| Dir (entries : list (string * node)).

Definition is_dir (n : node) : bool :=
  match n with
  | Dir _ => true
  | NonDir => false
  end.

(** The [dirs] and [files] lists of one [os.walk] tuple. *)
Definition dirs_of (entries : list (string * node)) : list string :=
  map fst (filter (fun e => is_dir (snd e)) entries).

Definition nondirs_of (entries : list (string * node)) : list string :=
  map fst (filter (fun e => negb (is_dir (snd e))) entries).

Section Traversal.

(** [os.path.islink]. *)
Variable islink : path -> bool.

(** [os.walk(top, topdown=False)] with the default [followlinks=False]:
    the walks of the sub-directories that are not symlinks, in listing
    order, then the tuple of [top] itself. *)
Fixpoint walk (top : path) (n : node)
    : list (path * list string * list string) :=
  match n with
  | NonDir => []
  | Dir entries =>
      flat_map
        (fun e =>
           let new_path := join top (fst e) in
           match snd e with
           | Dir _ => if islink new_path then [] else walk new_path (snd e)
           | NonDir => []
           end)
        entries
      ++ [(top, dirs_of entries, nondirs_of entries)]
  end.

(** The paths [shift_file] is called on while one tuple is handled,
    lines 159-169. *)
Definition visit (t : path * list string * list string) : list path :=
  let '(root, dirs, files) := t in
  map (fun fname => join root fname) files ++
  flat_map (fun dname =>
              if islink (join root dname) then [join root dname] else [])
           dirs ++
  [root].

(** The paths [shift_file] is called on, in order, over the whole walk. *)
Definition shift_order (target_dir : path) (tree : node) : list path :=
  flat_map visit (walk target_dir tree).

(** The sub-directory [e] of [top] is walked into. *)
Definition walked_into (top : path) (e : string * node) : bool :=
  is_dir (snd e) && negb (islink (join top (fst e))).

Section Loop.

Context {W : Type} (os : os_iface W) (debug : bool) (offset : Z).

Local Open Scope os_scope.












End Loop.

Lemma flat_map_flat_map {A B C : Type} (f : A -> list B) (g : B -> list C)
    (l : list A) :
  flat_map g (flat_map f l) = flat_map (fun a => flat_map g (f a)) l.
Proof.
  induction l as [|a l IH]; [reflexivity|].
  cbn [flat_map]. now rewrite flat_map_app, IH.
Qed.

Lemma links_filter (root : path) (dirs : list string) :
  flat_map (fun dname => if islink (join root dname)
                         then [join root dname] else []) dirs =
  filter islink (map (join root) dirs).
Proof.
  induction dirs as [|d dirs IH]; [reflexivity|].
  cbn [flat_map map filter]. cbv zeta.
  destruct (islink (join root d)); cbn [app]; now rewrite IH.
Qed.

(** The order in which one directory and its subtree are handled. *)
Lemma shift_order_Dir (top : path) (entries : list (string * node)) :
  shift_order top (Dir entries) =
  flat_map (fun e => if walked_into top e
                     then shift_order (join top (fst e)) (snd e)
                     else [])
           entries ++
  map (join top) (nondirs_of entries) ++
  filter islink (map (join top) (dirs_of entries)) ++
  [top].
Proof.
  unfold shift_order at 1. cbn [walk].
  rewrite flat_map_app, flat_map_flat_map. cbn [flat_map visit].
  rewrite app_nil_r, links_filter. f_equal.
  apply flat_map_ext. intros [name child]. unfold walked_into.
  cbn [fst snd]. destruct child as [|sub]; [reflexivity|].
  cbn [is_dir andb]. now destruct (islink (join top name)).
Qed.




Lemma dirs_of_app (l1 l2 : list (string * node)) :
  dirs_of (l1 ++ l2) = dirs_of l1 ++ dirs_of l2.
Proof. unfold dirs_of. now rewrite filter_app, map_app. Qed.

Lemma nondirs_of_app (l1 l2 : list (string * node)) :
  nondirs_of (l1 ++ l2) = nondirs_of l1 ++ nondirs_of l2.
Proof. unfold nondirs_of. now rewrite filter_app, map_app. Qed.

End Traversal.

(** The tree [root/{a.txt, sub/{b.txt}, link -> sub}]. *)
Definition example_tree : node :=
  Dir [("a.txt"%string, NonDir);
       ("sub"%string, Dir [("b.txt"%string, NonDir)]);
       ("link"%string, Dir [("b.txt"%string, NonDir)])].

Definition example_islink (p : path) : bool := (p =? "root/link")%string.

End Walk.
Export Walk.

(** C1. Boundary law of [shift_id]: for a non-negative id and a
    non-zero offset, with a positive offset the result is [id + offset]
    exactly when [id < |offset|] and the id itself otherwise; with a
    negative offset the result is [id + offset] exactly when
    [id >= |offset|] and the id itself otherwise. *)
Theorem shift_id_boundary_law (id offset : Z) :
  0 <= id -> offset <> 0 ->
  (0 < offset ->
     (shift_id id offset = id + offset <-> id < Z.abs offset) /\
     (~ id < Z.abs offset -> shift_id id offset = id)) /\
  (offset < 0 ->
     (shift_id id offset = id + offset <-> Z.abs offset <= id) /\
     (~ Z.abs offset <= id -> shift_id id offset = id)).
Proof.
  intros Hid Ho. split; intros Hs.
  - rewrite shift_id_pos by assumption. rewrite Z.abs_eq by lia.
    destruct (Z.ltb_spec id offset); split; try split; lia.
  - rewrite shift_id_neg by assumption. rewrite Z.abs_neq by lia.
    destruct (Z.leb_spec (- offset) id); split; try split; lia.
Qed.

Lemma shift_id_boundary_law_witness :
  ((0 < 100000 ->
     (shift_id 1000 100000 = 1000 + 100000 <-> 1000 < Z.abs 100000) /\
     (~ 1000 < Z.abs 100000 -> shift_id 1000 100000 = 1000)) /\
  (100000 < 0 ->
     (shift_id 1000 100000 = 1000 + 100000 <-> Z.abs 100000 <= 1000) /\
     (~ Z.abs 100000 <= 1000 -> shift_id 1000 100000 = 1000))).
Proof. apply (shift_id_boundary_law 1000 100000); lia. Defined.

(** C9. With a negative offset a non-negative id is never sent below
    zero: the shift applies only when [id >= |offset|], where
    [id + offset >= 0], and the id is returned unchanged otherwise. *)
Theorem shift_id_negative_offset_nonneg (id offset : Z) :
  0 <= id -> offset < 0 ->
  0 <= shift_id id offset /\
  (Z.abs offset <= id -> shift_id id offset = id + offset /\ 0 <= id + offset) /\
  (id < Z.abs offset -> shift_id id offset = id).
Proof.
  intros Hid Ho. rewrite shift_id_neg by assumption.
  rewrite Z.abs_neq by lia.
  destruct (Z.leb_spec (- offset) id); repeat split; lia.
Qed.

Lemma shift_id_negative_offset_nonneg_witness :
  0 <= shift_id 1500000 (-1000000) /\
  (Z.abs (-1000000) <= 1500000 ->
     shift_id 1500000 (-1000000) = 1500000 + -1000000 /\
     0 <= 1500000 + -1000000) /\
  (1500000 < Z.abs (-1000000) -> shift_id 1500000 (-1000000) = 1500000).
Proof. apply (shift_id_negative_offset_nonneg 1500000 (-1000000)); lia. Defined.

(** C10. For a non-negative id and a positive offset, [shift_id] is
    idempotent: a shifted id lands at [id + o >= o], outside the
    triggering range.  The same fails for negative offsets, as the
    second conjunct shows at id 5000 and offset -1000. *)
Theorem shift_id_idempotent_positive (id o : Z) :
  0 <= id -> 0 < o ->
  shift_id (shift_id id o) o = shift_id id o /\
  (id < o -> o <= shift_id id o) /\
  shift_id (shift_id 5000 (-1000)) (-1000) <> shift_id 5000 (-1000).
Proof.
  intros Hid Ho. split; [now apply shift_id_idem_pos|]. split.
  - intros Hlt. rewrite shift_id_pos by assumption.
    destruct (Z.ltb_spec id o); lia.
  - vm_compute. discriminate.
Qed.

Lemma shift_id_idempotent_positive_witness :
  shift_id (shift_id 1000 100000) 100000 = shift_id 1000 100000 /\
  (1000 < 100000 -> 100000 <= shift_id 1000 100000) /\
  shift_id (shift_id 5000 (-1000)) (-1000) <> shift_id 5000 (-1000).
Proof. apply (shift_id_idempotent_positive 1000 100000); lia. Defined.

(** C2 (as stated, refuted).  On a well-formed blob whose second USER
    entry would shift past 32 bits, [struct.pack] raises, the handler
    returns the input, and the first USER entry keeps id 1000 instead
    of the shifted id. *)
Lemma modify_acl_blob_overflow_counterexample :
  well_formed overflow_blob /\ 3000000000 <> 0 /\
  ~ acl_shift_law overflow_blob 3000000000.
Proof.
  split; [|split; [discriminate|]].
  - wf_by_computation.
  - intros (out & Hout & _ & Hall).
    assert (Hrun : modify_acl_blob overflow_blob 3000000000 =
                   Ok overflow_blob) by (vm_compute; reflexivity).
    rewrite Hrun in Hout. injection Hout as <-.
    assert (Hen : acl_entries overflow_blob =
                  [encode_entry ACL_TAG_USER 7 1000;
                   encode_entry ACL_TAG_USER 7 2000000000])
      by (vm_compute; reflexivity).
    rewrite Hen in Hall. inversion Hall as [|? ? ? ? Hfirst _]; subst.
    destruct Hfirst as (_ & _ & _ & Hid).
    vm_compute in Hid. discriminate Hid.
Qed.

(** C2 (amended).  For a well-formed blob and a non-zero offset: when
    every shifted USER/GROUP id stays below [2^32] (always so for a
    negative offset), the result keeps the header, re-encodes every
    entry in place in the little-endian layout, replaces the id of
    USER and GROUP entries by [shift_id] and keeps every other entry
    byte-identical; when some shifted id does not fit, the input is
    returned unchanged. *)
Theorem modify_acl_blob_shifts_entries (blob : bytes) (offset : Z) :
  well_formed blob -> offset <> 0 ->
  (Forall (id_fits offset) (acl_entries blob) ->
     acl_shift_law blob offset /\
     modify_acl_blob blob offset =
     Ok (firstn 4 blob ++
         flat_map (shifted_entry offset) (acl_entries blob))) /\
  (Exists (id_overflows offset) (acl_entries blob) ->
     modify_acl_blob blob offset = Ok blob) /\
  (offset < 0 -> Forall (id_fits offset) (acl_entries blob)).
Proof.
  intros Hwf Ho.
  destruct (well_formed_split blob Hwf) as (_ & _ & Hf & _).
  split; [|split].
  - intros Hfit. split; [now apply acl_shift_law_fits|].
    rewrite modify_acl_blob_well_formed by assumption.
    now rewrite forallb_entry_fits.
  - intros Hov. rewrite modify_acl_blob_well_formed by assumption.
    now rewrite forallb_entry_overflow.
  - intros Hneg. eapply Forall_impl; [|exact Hf].
    intros c Hc. now apply id_fits_negative.
Qed.

Lemma modify_acl_blob_shifts_entries_witness :
  modify_acl_blob sample_blob 100000 =
  Ok (le_encode 4 ACL_EA_VERSION ++
      encode_entry ACL_TAG_USER 7 101000 ++
      encode_entry 16 5 4294967295).
Proof.
  assert (Hwf : well_formed sample_blob).
  { wf_by_computation. }
  assert (Ho : 100000 <> 0) by discriminate.
  destruct (modify_acl_blob_shifts_entries sample_blob 100000 Hwf Ho)
    as (Hfit & _ & _).
  destruct Hfit as (_ & ->); [|vm_compute; reflexivity].
  repeat constructor; unfold id_fits; vm_compute;
    intros; (reflexivity || discriminate).
Defined.

(** C3.  [modify_acl_blob] never raises, whatever the bytes and the
    offset, and it returns its input unchanged when the input is
    shorter than 4 bytes, or its first 4 bytes are not the
    little-endian value 2, or the remaining length is not a multiple of
    8, or a [struct.error] is raised inside the [try] block. *)
Theorem modify_acl_blob_never_raises (blob : bytes) (offset : Z) :
  (exists out, modify_acl_blob blob offset = Ok out) /\
  ((length blob < 4)%nat \/
   le_decode (firstn 4 blob) <> 2 \/
   ((length blob - 4) mod 8 <> 0)%nat \/
   modify_acl_blob_body blob offset = Raise struct_error ->
   modify_acl_blob blob offset = Ok blob).
Proof.
  unfold modify_acl_blob. split.
  - destruct (modify_acl_blob_body_cases blob offset) as [(out & ->)| ->].
    + now exists out.
    + now exists blob.
  - intros [H|[H|[H|H]]]; try now rewrite H.
    all: now rewrite modify_acl_blob_body_passthrough by auto.
Qed.

Lemma modify_acl_blob_never_raises_witness :
  modify_acl_blob [x02; x00; x00] (-1000000) = Ok [x02; x00; x00].
Proof.
  apply (proj2 (modify_acl_blob_never_raises [x02; x00; x00] (-1000000))).
  left. simpl. lia.
Defined.

(** C8.  A well-formed blob in which every USER or GROUP id is outside
    the triggering range of the non-zero offset comes back
    byte-identical. *)
Theorem modify_acl_blob_identity_outside_range (blob : bytes) (offset : Z) :
  well_formed blob -> offset <> 0 ->
  Forall (fun c => is_id_tag (entry_tag c) = true ->
                   outside_range (entry_id c) offset)
         (acl_entries blob) ->
  modify_acl_blob blob offset = Ok blob.
Proof.
  intros Hwf Ho Hout.
  destruct (well_formed_split blob Hwf) as (Hsplit & _ & Hf & _).
  assert (Hboth : Forall (fun c => shifted_entry offset c = c /\
                                   id_fits offset c) (acl_entries blob)).
  { rewrite Forall_forall in *. intros c Hin.
    apply shifted_entry_outside; auto. }
  rewrite modify_acl_blob_well_formed by assumption.
  rewrite forallb_entry_fits;
    [|assumption|eapply Forall_impl; [|exact Hboth]; now intros c [_ H]].
  rewrite flat_map_fixed;
    [|eapply Forall_impl; [|exact Hboth]; now intros c [H _]].
  now rewrite <- Hsplit.
Qed.

Lemma modify_acl_blob_identity_outside_range_witness :
  modify_acl_blob sample_blob (-100000) = Ok sample_blob.
Proof.
  apply (modify_acl_blob_identity_outside_range sample_blob (-100000)).
  - wf_by_computation.
  - discriminate.
  - repeat constructor; unfold outside_range; vm_compute;
      intros; (reflexivity || discriminate).
Defined.

(** C5.  When the computed owner and group equal the current ones,
    [shift_file] stops after its [lstat]: it returns normally, leaves
    the world as it was, makes no ownership change, mode change or
    attribute write, and prints nothing.  So a run on an entry already
    at the shifted target makes no mutating call. *)
Theorem shift_file_unchanged_no_mutation {W : Type} (os : os_iface W)
    (debug : bool) (p : path) (offset : Z) (s : state W) (st : stat_result) :
  os_lstat os p (world s) = inr st ->
  shift_id (st_uid st) offset = st_uid st ->
  shift_id (st_gid st) offset = st_gid st ->
  fst (shift_file os debug p offset s) = Ok tt /\
  world (snd (shift_file os debug p offset s)) = world s /\
  calls (snd (shift_file os debug p offset s)) = calls s ++ [Lstat p] /\
  filter is_mutation (calls (snd (shift_file os debug p offset s))) =
    filter is_mutation (calls s) /\
  stderr (snd (shift_file os debug p offset s)) = stderr s /\
  stdout (snd (shift_file os debug p offset s)) = stdout s.
Proof.
  intros Hst Hu Hg.
  rewrite (shift_file_unchanged_run os debug p offset s st Hst)
    by (apply unchanged_true_iff; auto).
  cbn. repeat split. rewrite filter_app. cbn. apply app_nil_r.
Qed.

Lemma shift_file_unchanged_no_mutation_witness :
  let p := "/rootfs/bin/su"%string in
  let once := Kernel.after_shift p 100000 (Kernel.boot Kernel.setuid_fs) in
  filter is_mutation (calls once) =
    [Lchown p 101000 101000; Chmod p 3565] /\
  filter is_mutation
    (calls (snd (shift_file Kernel.kernel false p 100000 once))) =
    filter is_mutation (calls once).
Proof.
  intros p once. split; [vm_compute; reflexivity|].
  apply (shift_file_unchanged_no_mutation Kernel.kernel false p 100000 once
           {| st_mode := 36333; st_uid := 101000; st_gid := 101000 |});
    vm_compute; reflexivity.
Defined.

(** C6.  After a successful ownership change the next call is a
    [chmod] with the permission bits of the original mode (type bits
    masked off) unless the entry is a symlink, for which no [chmod] is
    made; the attribute restoration follows.  On the kernel model, the
    file of mode 0o6755 owned by 1000:1000 and shifted by +100000 ends
    owned by 101000:101000 with mode bits 0o6755 again, although the
    ownership change alone leaves 0o755. *)
Theorem shift_file_restores_mode :
  (forall (W : Type) (os : os_iface W) (debug : bool) (p : path)
          (offset : Z) (s : state W) (st : stat_result) (w1 : W),
     os_lstat os p (world s) = inr st ->
     unchanged offset st = false ->
     os_lchown os p (shift_id (st_uid st) offset)
               (shift_id (st_gid st) offset) (world s) = inr w1 ->
     calls (snd (shift_file os debug p offset s)) =
     calls s ++
     (Lstat p :: Listxattr p ::
      map (Getxattr p) (listed_names os (world s) p)) ++
     [Lchown p (shift_id (st_uid st) offset) (shift_id (st_gid st) offset)] ++
     (if S_ISLNK (st_mode st) then []
      else [Chmod p (S_IMODE (st_mode st))]) ++
     map (setxattr_call p)
         (backup_of os (world s) p offset (listed_names os (world s) p) [])) /\
  (forall mode : Z, S_IFMT (S_IMODE mode) = 0) /\
  (let p := "/rootfs/bin/su"%string in
   option_map (fun i => S_IMODE (Kernel.i_mode i))
     (match Kernel.k_lchown p 101000 101000 Kernel.setuid_fs with
      | inr w1 => Kernel.lookup p w1
      | inl _ => None
      end) = Some 493 /\
   option_map (fun i => (Kernel.i_uid i, Kernel.i_gid i,
                         S_IMODE (Kernel.i_mode i)))
     (Kernel.lookup p
        (world (Kernel.after_shift p 100000 (Kernel.boot Kernel.setuid_fs))))
   = Some (101000, 101000, 3565)).
Proof.
  split; [|split].
  - intros W os debug p offset s st w1 Hst Hun Hch.
    now apply shift_file_changed_calls with (w1 := w1).
  - apply S_IMODE_no_type_bits.
  - split; vm_compute; reflexivity.
Qed.

Lemma shift_file_restores_mode_witness :
  let p := "/rootfs/bin/sh"%string in
  calls (Kernel.after_shift p 100000 (Kernel.boot Kernel.symlink_fs)) =
    [Lstat p; Listxattr p; Lchown p 101000 101000] /\
  calls (Kernel.after_shift "/rootfs/bin/su"%string 100000
           (Kernel.boot Kernel.setuid_fs)) =
    [Lstat "/rootfs/bin/su"%string; Listxattr "/rootfs/bin/su"%string;
     Lchown "/rootfs/bin/su"%string 101000 101000;
     Chmod "/rootfs/bin/su"%string 3565].
Proof.
  intros p. split.
  - unfold Kernel.after_shift.
    rewrite (proj1 shift_file_restores_mode _ Kernel.kernel false p 100000
               (Kernel.boot Kernel.symlink_fs)
               {| st_mode := 41471; st_uid := 1000; st_gid := 1000 |}
               [(p, {| Kernel.i_mode := 41471; Kernel.i_uid := 101000;
                       Kernel.i_gid := 101000; Kernel.i_xattrs := [];
                       Kernel.i_unreadable := [] |})]);
      vm_compute; reflexivity.
  - unfold Kernel.after_shift.
    rewrite (proj1 shift_file_restores_mode _ Kernel.kernel false
               "/rootfs/bin/su"%string 100000
               (Kernel.boot Kernel.setuid_fs)
               {| st_mode := 36333; st_uid := 1000; st_gid := 1000 |}
               [("/rootfs/bin/su"%string,
                 {| Kernel.i_mode := 33261; Kernel.i_uid := 101000;
                    Kernel.i_gid := 101000; Kernel.i_xattrs := [];
                    Kernel.i_unreadable := [] |})]);
      vm_compute; reflexivity.
Defined.





(** The tree [root/{a.txt, sub/{b.txt}, link -> sub}] of the
    specification: [sub/b.txt] before [sub], [sub] before [root], and
    [link] before [root]. *)
Example traversal_example :
  shift_order example_islink "root"%string example_tree =
  ["root/sub/b.txt"; "root/sub"; "root/a.txt"; "root/link"; "root"]%string.
Proof. vm_compute. reflexivity. Qed.

(** * Further properties of the code *)

(** ** Shift arithmetic *)

(** X1.  Shifting an id of the container range up and then down by
    the same amount gives the id back. *)
Theorem shift_id_up_then_down (id o : Z) :
  0 <= id < o -> shift_id (shift_id id o) (- o) = id.
Proof.
  intros H. rewrite (shift_id_pos id o) by lia.
  destruct (Z.ltb_spec id o); [|lia].
  rewrite shift_id_neg by lia.
  destruct (Z.leb_spec (- - o) (id + o)); lia.
Qed.

Lemma shift_id_up_then_down_witness :
  shift_id (shift_id 1000 100000) (- 100000) = 1000.
Proof. apply (shift_id_up_then_down 1000 100000). lia. Defined.

(** X2.  Shifting an id of the first host range down and then up by
    the same amount gives the id back. *)
Theorem shift_id_down_then_up (id o : Z) :
  0 < o -> o <= id < 2 * o -> shift_id (shift_id id (- o)) o = id.
Proof.
  intros Ho H. rewrite (shift_id_neg id (- o)) by lia.
  destruct (Z.leb_spec (- - o) id); [|lia].
  rewrite shift_id_pos by lia.
  destruct (Z.ltb_spec (id + - o) o); lia.
Qed.

Lemma shift_id_down_then_up_witness :
  shift_id (shift_id 101000 (- 100000)) 100000 = 101000.
Proof. apply (shift_id_down_then_up 101000 100000); lia. Defined.

(** X3.  After a shift by a positive offset no non-negative id is left
    below the offset: the result is the id itself, already at or above
    the offset, or it lies in the first host range. *)
Theorem shift_id_positive_reaches_offset (id o : Z) :
  0 <= id -> 0 < o ->
  o <= shift_id id o /\
  (shift_id id o = id \/ shift_id id o < 2 * o).
Proof.
  intros Hid Ho. rewrite shift_id_pos by lia.
  destruct (Z.ltb_spec id o); lia.
Qed.

Lemma shift_id_positive_reaches_offset_witness :
  100000 <= shift_id 0 100000 /\
  (shift_id 0 100000 = 0 \/ shift_id 0 100000 < 2 * 100000).
Proof. apply (shift_id_positive_reaches_offset 0 100000); lia. Defined.

(** X4.  A positive shift is not injective: an id of the container
    range and the id one offset above it are sent to the same id. *)
Theorem shift_id_positive_collision (id o : Z) :
  0 <= id < o -> shift_id id o = shift_id (id + o) o /\ id <> id + o.
Proof.
  intros H. rewrite !shift_id_pos by lia.
  destruct (Z.ltb_spec id o); [|lia].
  destruct (Z.ltb_spec (id + o) o); lia.
Qed.

Lemma shift_id_positive_collision_witness :
  shift_id 1000 100000 = shift_id (1000 + 100000) 100000 /\
  1000 <> 1000 + 100000.
Proof. apply (shift_id_positive_collision 1000 100000). lia. Defined.

(** X5.  A negative shift applied twice moves an id twice when the id
    is at least twice the magnitude of the offset. *)
Theorem shift_id_negative_shifts_again (id o : Z) :
  o < 0 -> - (2 * o) <= id ->
  shift_id (shift_id id o) o = id + 2 * o /\
  shift_id (shift_id id o) o <> shift_id id o.
Proof.
  intros Ho H. rewrite (shift_id_neg id o) by lia.
  destruct (Z.leb_spec (- o) id); [|lia].
  rewrite shift_id_neg by lia.
  destruct (Z.leb_spec (- o) (id + o)); lia.
Qed.

Lemma shift_id_negative_shifts_again_witness :
  shift_id (shift_id 5000 (-1000)) (-1000) = 5000 + 2 * -1000 /\
  shift_id (shift_id 5000 (-1000)) (-1000) <> shift_id 5000 (-1000).
Proof. apply (shift_id_negative_shifts_again 5000 (-1000)); lia. Defined.

(** ** ACL blob codec *)

(** X6.  [modify_acl_blob] never changes the length of its input. *)
Theorem modify_acl_blob_preserves_length (blob : bytes) (offset : Z) :
  exists out,
    modify_acl_blob blob offset = Ok out /\ length out = length blob.
Proof.
  destruct (well_formed_dec blob) as [Hwf|Hbad].
  - rewrite modify_acl_blob_rebuilt by assumption.
    eexists. split; [reflexivity|].
    destruct (forallb _ _); [|reflexivity].
    now apply rebuilt_well_formed.
  - exists blob. split; [now apply modify_acl_blob_malformed|reflexivity].
Qed.

(** X7.  The result on a well-formed blob is a well-formed blob with
    the same header and the same number of entries, and each entry
    keeps its tag and permission bytes. *)
Theorem modify_acl_blob_preserves_format (blob : bytes) (offset : Z) :
  well_formed blob ->
  exists out,
    modify_acl_blob blob offset = Ok out /\
    well_formed out /\
    firstn 4 out = firstn 4 blob /\
    length (acl_entries out) = length (acl_entries blob) /\
    Forall2 (fun c c' => firstn 4 c' = firstn 4 c)
            (acl_entries blob) (acl_entries out).
Proof.
  intros Hwf. rewrite modify_acl_blob_rebuilt by assumption.
  eexists. split; [reflexivity|].
  destruct (well_formed_split blob Hwf) as (_ & _ & Hf & _).
  destruct (forallb _ _).
  - destruct (rebuilt_well_formed blob offset Hwf) as (Hw & Hh & He & _).
    repeat split; try apply Hw; try assumption.
    + now rewrite He, length_map.
    + rewrite He. clear He. induction Hf as [|c l Hc _ IH]; [constructor|].
      cbn [map]. constructor; [now apply shifted_entry_prefix|exact IH].
  - repeat split; try apply Hwf.
    clear Hwf. induction Hf as [|c l Hc _ IH]; now constructor.
Qed.

Lemma modify_acl_blob_preserves_format_witness :
  exists out,
    modify_acl_blob sample_blob 100000 = Ok out /\
    well_formed out /\
    firstn 4 out = firstn 4 sample_blob /\
    length (acl_entries out) = length (acl_entries sample_blob) /\
    Forall2 (fun c c' => firstn 4 c' = firstn 4 c)
            (acl_entries sample_blob) (acl_entries out).
Proof.
  apply (modify_acl_blob_preserves_format sample_blob 100000).
  wf_by_computation.
Defined.

(** X8.  With offset zero [modify_acl_blob] returns every byte string
    unchanged. *)
Theorem modify_acl_blob_zero_offset (blob : bytes) :
  modify_acl_blob blob 0 = Ok blob.
Proof.
  destruct (well_formed_dec blob) as [Hwf|Hbad].
  - apply modify_acl_blob_unshifted; [assumption|].
    apply Forall_forall. intros c _ _. apply shift_id_zero.
  - now apply modify_acl_blob_malformed.
Qed.

(** X9.  With a positive offset [modify_acl_blob] is idempotent on
    every byte string: a blob that went through it once comes back
    unchanged from a second pass with the same offset. *)
Theorem modify_acl_blob_idempotent_positive (blob out : bytes) (offset : Z) :
  0 < offset ->
  modify_acl_blob blob offset = Ok out ->
  modify_acl_blob out offset = Ok out.
Proof.
  intros Ho Hrun.
  destruct (well_formed_dec blob) as [Hwf|Hbad].
  - rewrite modify_acl_blob_rebuilt in Hrun by assumption.
    destruct (forallb (entry_fits offset) (acl_entries blob)) eqn:Hfit.
    + injection Hrun as <-.
      destruct (rebuilt_well_formed blob offset Hwf) as (Hw & _ & He & _).
      destruct (well_formed_split blob Hwf) as (_ & _ & Hf & _).
      apply modify_acl_blob_unshifted; [assumption|].
      rewrite He. apply Forall_map. apply Forall_forall. intros c Hin.
      rewrite Forall_forall in Hf. specialize (Hf c Hin).
      rewrite forallb_forall in Hfit. specialize (Hfit c Hin).
      apply entry_fits_iff in Hfit; [|assumption].
      destruct (shifted_entry_fields offset c Hf Hfit) as (-> & _ & ->).
      intros Htag. rewrite Htag.
      destruct (entry_fields_range c Hf) as (_ & _ & Hi).
      apply in_range_spec in Hi. apply shift_id_idem_pos; lia.
    + injection Hrun as <-.
      rewrite modify_acl_blob_rebuilt by assumption. now rewrite Hfit.
  - rewrite modify_acl_blob_malformed in Hrun by assumption.
    injection Hrun as <-. now apply modify_acl_blob_malformed.
Qed.

Lemma modify_acl_blob_idempotent_positive_witness :
  modify_acl_blob (shifted_blob sample_blob 100000) 100000 =
  Ok (shifted_blob sample_blob 100000).
Proof.
  apply (modify_acl_blob_idempotent_positive sample_blob _ 100000).
  - lia.
  - vm_compute. reflexivity.
Defined.

(** X10.  Round trip: on a well-formed blob whose USER and GROUP ids
    all lie below a positive offset and still fit in 32 bits once
    shifted, shifting by the offset and then by its opposite gives the
    input back byte for byte. *)
Theorem modify_acl_blob_up_then_down (blob : bytes) (offset : Z) :
  well_formed blob -> 0 < offset ->
  Forall (fun c => is_id_tag (entry_tag c) = true ->
                   entry_id c < offset /\ entry_id c + offset < 2 ^ 32)
         (acl_entries blob) ->
  exists out,
    modify_acl_blob blob offset = Ok out /\
    modify_acl_blob out (- offset) = Ok blob.
Proof.
  intros Hwf Ho Hids.
  destruct (well_formed_split blob Hwf) as (Hsplit & _ & Hf & _).
  assert (Hfit : Forall (id_fits offset) (acl_entries blob)).
  { rewrite Forall_forall in *. intros c Hin Htag.
    destruct (Hids c Hin Htag) as (Hlt & Hsum).
    rewrite shift_id_pos by lia. destruct (Z.ltb_spec (entry_id c) offset);
      lia. }
  exists (rebuilt blob offset).
  rewrite modify_acl_blob_rebuilt by assumption.
  rewrite forallb_entry_fits by assumption. split; [reflexivity|].
  destruct (rebuilt_well_formed blob offset Hwf) as (Hw & Hh & He & _).
  rewrite modify_acl_blob_rebuilt by assumption.
  rewrite forallb_entry_fits.
  - unfold rebuilt at 1. rewrite Hh, He, map_map.
    rewrite Hsplit at 3. do 3 f_equal.
    rewrite <- (map_id (acl_entries blob)) at 2.
    apply map_ext_in. intros c Hin.
    rewrite Forall_forall in Hf, Hfit, Hids.
    specialize (Hf c Hin). specialize (Hfit c Hin). specialize (Hids c Hin).
    destruct (shifted_entry_fields offset c Hf Hfit) as (Ht & Hp & Hi).
    unfold shifted_entry at 1. rewrite Ht, Hp, Hi.
    destruct (is_id_tag (entry_tag c)) eqn:Htag.
    + destruct (Hids eq_refl) as (Hlt & _).
      destruct (entry_fields_range c Hf) as (_ & _ & Hr).
      apply in_range_spec in Hr.
      rewrite shift_id_up_down_id by lia.
      now apply encode_decode_entry.
    + unfold shifted_entry. now rewrite Htag.
  - destruct (well_formed_split _ Hw) as (_ & _ & Hf' & _). exact Hf'.
  - destruct (well_formed_split _ Hw) as (_ & _ & Hf' & _).
    eapply Forall_impl; [|exact Hf'].
    intros c Hc. apply id_fits_negative; [assumption|lia].
Qed.

Lemma modify_acl_blob_up_then_down_witness :
  exists out,
    modify_acl_blob sample_blob 100000 = Ok out /\
    modify_acl_blob out (- 100000) = Ok sample_blob.
Proof.
  apply (modify_acl_blob_up_then_down sample_blob 100000).
  - wf_by_computation.
  - lia.
  - repeat constructor; vm_compute; intros;
      (reflexivity || discriminate).
Defined.

(** ** The per-entry protocol *)


(** X12.  When [os.lstat] fails, the run is that one call: the error is
    reported on stderr, the world is left as it was and nothing else is
    attempted. *)
Theorem shift_file_lstat_failure {W : Type} (os : os_iface W) (debug : bool)
    (p : path) (offset : Z) (s : state W) (e : string) :
  os_lstat os p (world s) = inl e ->
  world (snd (shift_file os debug p offset s)) = world s /\
  calls (snd (shift_file os debug p offset s)) = calls s ++ [Lstat p] /\
  stderr (snd (shift_file os debug p offset s)) =
    stderr s ++ [Error_processing p e] /\
  stdout (snd (shift_file os debug p offset s)) = stdout s.
Proof.
  intros Hst.
  rewrite (shift_file_lstat_error_run os debug p offset s e Hst).
  now repeat split.
Qed.

Lemma shift_file_lstat_failure_witness :
  let run := shift_file Kernel.kernel false "/missing"%string 100000
               (Kernel.boot Kernel.setuid_fs) in
  world (snd run) = Kernel.setuid_fs /\
  calls (snd run) = [] ++ [Lstat "/missing"%string] /\
  stderr (snd run) =
    [] ++ [Error_processing "/missing"%string
                            "No such file or directory"%string] /\
  stdout (snd run) = [].
Proof.
  apply (shift_file_lstat_failure Kernel.kernel false "/missing"%string
           100000 (Kernel.boot Kernel.setuid_fs)).
  vm_compute. reflexivity.
Defined.



(** X14.  When [os.listxattr] fails, the run goes on with an empty
    backup: the owner is changed, the mode restored, no attribute is
    written, and the failure itself prints nothing. *)
Theorem shift_file_listxattr_failure {W : Type} (os : os_iface W)
    (debug : bool) (p : path) (offset : Z) (s : state W) (st : stat_result)
    (e : string) (w1 : W) :
  os_lstat os p (world s) = inr st ->
  unchanged offset st = false ->
  os_listxattr os p (world s) = inl e ->
  os_lchown os p (shift_id (st_uid st) offset) (shift_id (st_gid st) offset)
            (world s) = inr w1 ->
  calls (snd (shift_file os debug p offset s)) =
    calls s ++
    [Lstat p; Listxattr p;
     Lchown p (shift_id (st_uid st) offset) (shift_id (st_gid st) offset)] ++
    (if S_ISLNK (st_mode st) then [] else [Chmod p (S_IMODE (st_mode st))]) /\
  stderr (snd (shift_file os debug p offset s)) =
    stderr s ++
    (if S_ISLNK (st_mode st) then []
     else match os_chmod os p (S_IMODE (st_mode st)) w1 with
          | inl e' => [Warning_mode p e']
          | inr _ => []
          end).
Proof.
  intros Hst Hun Hls Hch.
  rewrite (shift_file_changed_run os debug p offset s st w1 Hst Hun Hch).
  cbn [snd].
  assert (Hnames : listed_names os (world s) p = [])
    by (unfold listed_names; now rewrite Hls).
  assert (Hgoal :
    calls (state_restored os p offset st w1 s) =
      calls s ++
      [Lstat p; Listxattr p;
       Lchown p (shift_id (st_uid st) offset) (shift_id (st_gid st) offset)] ++
      (if S_ISLNK (st_mode st) then [] else [Chmod p (S_IMODE (st_mode st))]) /\
    stderr (state_restored os p offset st w1 s) =
      stderr s ++
      (if S_ISLNK (st_mode st) then []
       else match os_chmod os p (S_IMODE (st_mode st)) w1 with
            | inl e' => [Warning_mode p e']
            | inr _ => []
            end)).
  { unfold state_restored, state_after_lchown, state_before_lchown.
    rewrite Hnames. cbn [backup_of fold_left map].
    unfold restore_mode_state.
    destruct (S_ISLNK (st_mode st)).
    - cbn. rewrite <- !app_assoc, app_nil_r. now split.
    - cbn [world set_world].
      destruct (os_chmod os p (S_IMODE (st_mode st)) w1); cbn;
        rewrite <- !app_assoc, ?app_nil_r; now split. }
  now destruct debug.
Qed.

Lemma shift_file_listxattr_failure_witness :
  let p := "/rootfs/bin/su"%string in
  let run := shift_file Kernel.no_xattr_kernel false p 100000
               (Kernel.boot Kernel.setuid_fs) in
  calls (snd run) =
    [Lstat p; Listxattr p; Lchown p 101000 101000; Chmod p 3565] /\
  stderr (snd run) = [].
Proof.
  apply (shift_file_listxattr_failure Kernel.no_xattr_kernel false
           "/rootfs/bin/su"%string 100000 (Kernel.boot Kernel.setuid_fs)
           {| st_mode := 36333; st_uid := 1000; st_gid := 1000 |}
           "Operation not supported"%string
           [("/rootfs/bin/su"%string,
             {| Kernel.i_mode := 33261; Kernel.i_uid := 101000;
                Kernel.i_gid := 101000; Kernel.i_xattrs := [];
                Kernel.i_unreadable := [] |})]);
    vm_compute; reflexivity.
Defined.

(** X15.  Every system call of a run of [shift_file] is made on the
    path it was given. *)
Theorem shift_file_calls_own_path {W : Type} (os : os_iface W) (debug : bool)
    (p : path) (offset : Z) (s : state W) :
  exists new,
    calls (snd (shift_file os debug p offset s)) = calls s ++ new /\
    Forall (fun c => call_path c = p) new.
Proof. apply shift_file_calls_run. Qed.

(** X16.  When the listed attribute names are distinct and every value
    can be read, a run that changes the owner writes back one
    attribute per listed name, in listing order: the two ACL
    attributes with the value [modify_acl_blob] returns for them,
    every other attribute with the value that was read. *)
Theorem shift_file_restores_every_xattr {W : Type} (os : os_iface W)
    (debug : bool) (p : path) (offset : Z) (s : state W) (st : stat_result)
    (w1 : W) (names : list string) (values : list bytes) :
  os_lstat os p (world s) = inr st ->
  unchanged offset st = false ->
  os_listxattr os p (world s) = inr names ->
  NoDup names ->
  Forall2 (fun n v => os_getxattr os p n (world s) = inr v) names values ->
  os_lchown os p (shift_id (st_uid st) offset) (shift_id (st_gid st) offset)
            (world s) = inr w1 ->
  calls (snd (shift_file os debug p offset s)) =
    calls s ++
    (Lstat p :: Listxattr p :: map (Getxattr p) names) ++
    [Lchown p (shift_id (st_uid st) offset) (shift_id (st_gid st) offset)] ++
    (if S_ISLNK (st_mode st) then [] else [Chmod p (S_IMODE (st_mode st))]) ++
    map (fun nv =>
           Setxattr p (fst nv)
             (if in_acl_xattrs (fst nv)
              then shifted_blob (snd nv) offset
              else snd nv))
        (combine names values).
Proof.
  intros Hst Hun Hls Hnd Hvals Hch.
  rewrite (shift_file_changed_calls os debug p offset s st w1 Hst Hun Hch).
  assert (Hnames : listed_names os (world s) p = names)
    by (unfold listed_names; now rewrite Hls).
  rewrite Hnames.
  rewrite (backup_of_all_readable os (world s) p offset names values Hvals Hnd)
    by (intros n _ []).
  cbn [app]. unfold backed_up. rewrite map_map. reflexivity.
Qed.

Lemma shift_file_restores_every_xattr_witness :
  let p := "/rootfs/etc/motd"%string in
  calls (snd (shift_file Kernel.kernel false p 100000
                (Kernel.boot Kernel.acl_fs))) =
  [Lstat p; Listxattr p;
   Getxattr p "user.comment"%string;
   Getxattr p "system.posix_acl_access"%string;
   Lchown p 101000 101000; Chmod p 420;
   Setxattr p "user.comment"%string [x68; x69];
   Setxattr p "system.posix_acl_access"%string
     (le_encode 4 ACL_EA_VERSION ++
      encode_entry ACL_TAG_USER 7 101000 ++
      encode_entry 16 5 4294967295)].
Proof.
  intros p.
  rewrite (shift_file_restores_every_xattr Kernel.kernel false p 100000
             (Kernel.boot Kernel.acl_fs)
             {| st_mode := 33188; st_uid := 1000; st_gid := 1000 |}
             [(p, {| Kernel.i_mode := 33188; Kernel.i_uid := 101000;
                     Kernel.i_gid := 101000;
                     Kernel.i_xattrs :=
                       [("user.comment"%string, [x68; x69]);
                        ("system.posix_acl_access"%string, sample_blob)];
                     Kernel.i_unreadable := [] |})]
             ["user.comment"%string; "system.posix_acl_access"%string]
             [[x68; x69]; sample_blob]).
  - vm_compute. reflexivity.
  - vm_compute. reflexivity.
  - vm_compute. reflexivity.
  - vm_compute. reflexivity.
  - repeat constructor; cbn; intuition discriminate.
  - repeat constructor; vm_compute; reflexivity.
  - vm_compute. reflexivity.
Defined.

(** X17.  Standard output: without [DEBUG] a run prints nothing on
    it; with [DEBUG] it prints one line exactly when the owner was
    changed. *)
Theorem shift_file_stdout {W : Type} (os : os_iface W) (debug : bool)
    (p : path) (offset : Z) (s : state W) :
  stdout (snd (shift_file os debug p offset s)) =
  stdout s ++ (if debug then shifted_line os p offset (world s) else []).
Proof. apply shift_file_stdout_run. Qed.

(** X18.  Once [os.lchown] has succeeded nothing is reported as an
    error: whatever fails while the mode and the attributes are
    restored adds warnings to stderr and nothing else. *)
Theorem shift_file_restore_failures_are_warnings {W : Type}
    (os : os_iface W) (debug : bool) (p : path) (offset : Z) (s : state W)
    (st : stat_result) (w1 : W) :
  os_lstat os p (world s) = inr st ->
  unchanged offset st = false ->
  os_lchown os p (shift_id (st_uid st) offset) (shift_id (st_gid st) offset)
            (world s) = inr w1 ->
  exists ws,
    stderr (snd (shift_file os debug p offset s)) = stderr s ++ ws /\
    forallb is_warning ws = true.
Proof.
  intros Hst Hun Hch.
  rewrite (shift_file_changed_run os debug p offset s st w1 Hst Hun Hch).
  cbn [snd].
  destruct (state_restored_stderr os p offset st w1 s) as (ws & Hws & Hall).
  exists ws. split; [|assumption]. now destruct debug.
Qed.

Lemma shift_file_restore_failures_are_warnings_witness :
  let p := "/rootfs/etc/motd"%string in
  stderr (snd (shift_file Kernel.sealed_kernel false p 100000
                 (Kernel.boot Kernel.acl_fs))) =
    [Warning_xattr "user.comment"%string p "Operation not permitted"%string;
     Warning_xattr "system.posix_acl_access"%string p
                   "Operation not permitted"%string] /\
  exists ws,
    stderr (snd (shift_file Kernel.sealed_kernel false p 100000
                   (Kernel.boot Kernel.acl_fs))) = [] ++ ws /\
    forallb is_warning ws = true.
Proof.
  intros p. split; [vm_compute; reflexivity|].
  apply (shift_file_restore_failures_are_warnings Kernel.sealed_kernel
           false p 100000 (Kernel.boot Kernel.acl_fs)
           {| st_mode := 33188; st_uid := 1000; st_gid := 1000 |}
           [(p, {| Kernel.i_mode := 33188; Kernel.i_uid := 101000;
                   Kernel.i_gid := 101000;
                   Kernel.i_xattrs :=
                     [("user.comment"%string, [x68; x69]);
                      ("system.posix_acl_access"%string, sample_blob)];
                   Kernel.i_unreadable := [] |})]);
    vm_compute; reflexivity.
Defined.

(** ** The traversal *)




(** X21.  The walk never enters a symlinked directory: what lies
    behind the symlink has no effect on the paths that are shifted. *)
Theorem symlinked_directory_not_entered (islink : path -> bool) (top : path)
    (pre post : list (string * node)) (name : string)
    (behind other : list (string * node)) :
  islink (join top name) = true ->
  shift_order islink top (Dir (pre ++ (name, Dir behind) :: post)) =
  shift_order islink top (Dir (pre ++ (name, Dir other) :: post)).
Proof.
  intros Hlink. rewrite !shift_order_Dir.
  rewrite !flat_map_app. cbn [flat_map].
  unfold walked_into at 2 5. cbn [fst snd is_dir andb].
  rewrite Hlink. cbn [negb app].
  rewrite !dirs_of_app, !nondirs_of_app. reflexivity.
Qed.

Lemma symlinked_directory_not_entered_witness :
  shift_order example_islink "root"%string
    (Dir ([("a.txt"%string, NonDir);
           ("sub"%string, Dir [("b.txt"%string, NonDir)])] ++
          ("link"%string, Dir [("b.txt"%string, NonDir)]) :: [])) =
  shift_order example_islink "root"%string
    (Dir ([("a.txt"%string, NonDir);
           ("sub"%string, Dir [("b.txt"%string, NonDir)])] ++
          ("link"%string, Dir []) :: [])).
Proof.
  apply (symlinked_directory_not_entered example_islink "root"%string).
  vm_compute. reflexivity.
Defined.
